(** * expo-iap example driver: a shallow embedding of [example/App.tsx]

    The repository's sources are the example screen [App] (a React component
    driving the [useIAP] hook) and a test of a sibling screen.  The hook itself
    and the native store live outside these sources.

    Part I embeds [App.tsx]: its constants, the values it reads from the hook,
    its three pieces of React state, the asynchronous functions
    [handleOperation] and [initializeIAP], the callbacks handed to [useIAP],
    the render function, and the event loop that ties them together.

    Part II is the orchestration core of the specification (connection,
    catalogue cache, dispatcher, event channel), written from the
    specification's text because its code is not among the sources. *)

From stdpp Require Import base strings list gmap.

Open Scope string_scope.
Open Scope list_scope.
Open Scope stdpp_scope.

(* ===================================================================== *)
(** * Part I.  The driver, from [example/App.tsx]                         *)
(* ===================================================================== *)

(** ** JavaScript values the driver treats as opaque

    Purchases, purchase errors, sync errors and caught exceptions are only
    ever passed to [JSON.stringify], to [String], compared by identity in an
    effect's dependency list, or tested for being non-null.  An object is
    therefore modelled by its identity and by what those two conversions
    return for it when they are applied.

    [String(v)] calls the value's [toString]/[valueOf] and throws a
    [TypeError] when it has neither (an object made by
    [Object.create(null)], say): [str] is [None] for such a value.  The
    values handed to [JSON.stringify] are the hook's purchases and purchase
    errors, plain data that came over the native bridge, on which it is
    defined. *)
Record JsObject := {
  ref : nat;
  json : string;
  str : option string;
}.

#[global] Instance JsObject_eq_dec : EqDecision JsObject.
Proof. solve_decision. Defined.

Definition JSON_stringify (v : JsObject) : string := json v.
Definition String_ (v : JsObject) : option string := str v.

(** A [TypeError] made by the engine.  It is an [Error]: [String] gives its
    name and message, [JSON.stringify] gives an empty object.  The wording
    of a message is the engine's own (below, that of V8), and nothing that
    is proved rests on it. *)
Definition TypeError (message : string) : JsObject :=
  {| ref := 0; json := "{}"; str := Some ("TypeError: " +:+ message) |}.

(** [Platform.OS] of react-native; the [platform] field of a catalogue item
    is compared against the same literals. *)
Inductive PlatformOS := ios | android | windows | macos | web.

#[global] Instance PlatformOS_eq_dec : EqDecision PlatformOS.
Proof. solve_decision. Defined.

(** JavaScript truthiness of an optional string: [undefined], [null] and the
    empty string are falsy. *)
Definition truthy (s : option string) : bool :=
  match s with
  | Some EmptyString => false
  | Some _ => true
  | None => false
  end.

Definition nl : string := String (Ascii.ascii_of_nat 10) EmptyString.

(** ** Module constants *)

Definition productSkus : list string :=
  [ "cpk.points.1000"; "cpk.points.5000"; "cpk.points.10000"; "cpk.points.30000" ].

Definition subscriptionSkus : list string :=
  [ "cpk.membership.monthly.bronze"; "cpk.membership.monthly.silver" ].

Inductive Operation := getProductsOp | getSubscriptionsOp | validateReceiptOp.

#[global] Instance Operation_eq_dec : EqDecision Operation.
Proof. solve_decision. Defined.

Definition operations : list Operation :=
  [ getProductsOp; getSubscriptionsOp; validateReceiptOp ].

(** The string an [Operation] is at run time (used in template literals). *)
Definition operation_name (operation : Operation) : string :=
  match operation with
  | getProductsOp => "getProducts"
  | getSubscriptionsOp => "getSubscriptions"
  | validateReceiptOp => "validateReceipt"
  end.

(** ** Catalogue items as the render function reads them *)

Module Product.
Record t := {
  id : string;
  title : string;
  platform : PlatformOS;
  displayPrice : string;
  (* item.oneTimePurchaseOfferDetails?.formattedPrice *)
  formattedPrice : option string;
}.
End Product.

Module Offer.
Record t := {
  offerId : string;
  offerToken : option string;
  (* offer.pricingPhases.pricingPhaseList.map(ppl => ppl.billingPeriod) *)
  billingPeriods : list string;
}.
End Offer.

Module Subscription.
Record t := {
  id : string;
  title : string;
  platform : PlatformOS;
  displayName : string;
  displayPrice : string;
  subscriptionOfferDetails : option (list Offer.t);
}.
End Subscription.

Record ValidationResult := {
  isValid : bool;
  receiptData : option string;
  jwsRepresentation : option string;
}.

(** ** Arguments of [requestPurchase] as the buttons build them *)

Record SubscriptionOffer := {
  so_sku : string;
  so_offerToken : string;
}.

Inductive Request :=
| ReqSkus (skus : list string) (subscriptionOffers : option (list SubscriptionOffer))
| ReqSku (sku : string).

Inductive PurchaseType := inapp | subs.

Record PurchaseArgs := {
  request : Request;
  type : option PurchaseType;
}.

(** ** What [useIAP] returns to the component on a render *)
Record Hook := {
  connected : bool;
  products : list Product.t;
  subscriptions : list Subscription.t;
  currentPurchase : option JsObject;
  currentPurchaseError : option JsObject;
  (* identity of the [getProducts]/[getSubscriptions] callbacks, which are
     dependencies of the first effect *)
  fetchers : nat;
}.

(** ** The component's own state: three [useState] cells *)
Record Comp := {
  syncError : option JsObject;
  isReady : bool;
  validationResult : option ValidationResult;
}.

Definition initialComp : Comp :=
  {| syncError := None; isReady := false; validationResult := None |}.

Inductive Setter :=
| setSyncError (v : option JsObject)
| setIsReady (b : bool)
| setValidationResult (v : option ValidationResult).

Definition apply_setter (s : Setter) (c : Comp) : Comp :=
  match s with
  | setSyncError v =>
      {| syncError := v; isReady := isReady c; validationResult := validationResult c |}
  | setIsReady b =>
      {| syncError := syncError c; isReady := b; validationResult := validationResult c |}
  | setValidationResult v =>
      {| syncError := syncError c; isReady := isReady c; validationResult := v |}
  end.

(** ** Observable effects *)

Record AlertButton := {
  text : string;
  onPress : list Setter;
}.

Record AlertSpec := {
  alert_title : string;
  alert_message : string;
  alert_buttons : list AlertButton;
}.

(** Calls into the hook: the driver's only route to the store. *)
Inductive HookCall :=
| GetProducts (skus : list string)
| GetSubscriptions (skus : list string)
| ValidateReceipt (sku : string)
| RequestPurchase (args : PurchaseArgs).

Inductive Effect :=
| Alert_alert (a : AlertSpec)
| runAfterInteractions (a : AlertSpec)
| console_log (label : string) (v : JsObject)
| console_error (label : string) (v : JsObject)
| Call (c : HookCall).

Definition is_call (e : Effect) : bool :=
  match e with Call _ => true | _ => false end.

(** ** Settled promises *)
Inductive Settled (A : Type) :=
| Fulfilled (a : A)
| Rejected (e : JsObject).
Arguments Fulfilled {A} a.
Arguments Rejected {A} e.

(** [Promise.all]: fulfilled when every member is, rejected with a member's
    reason otherwise.  It rejects at the first rejection in time; a list of
    outcomes stands for that by giving the members in the order in which
    they are looked at, and anything to those not settled by then. *)
Fixpoint Promise_all (outs : list (Settled unit)) : Settled unit :=
  match outs with
  | [] => Fulfilled tt
  | Fulfilled _ :: rest => Promise_all rest
  | Rejected e :: _ => Rejected e
  end.

(** ** Programs: synchronous effects, state updates, and awaits *)
Inductive Prog (A : Type) : Type :=
| Ret (a : A)
| Throw (e : JsObject)
| Emit (eff : Effect) (k : Prog A)
| Set_ (s : Setter) (k : Prog A)
| AwaitAll (calls : list HookCall) (k : Settled unit -> Prog A)
| AwaitValidate (sku : string) (k : Settled (option ValidationResult) -> Prog A).
Arguments Ret {A} a.
Arguments Throw {A} e.
Arguments Emit {A} eff k.
Arguments Set_ {A} s k.
Arguments AwaitAll {A} calls k.
Arguments AwaitValidate {A} sku k.

Fixpoint bind {A B} (m : Prog A) (f : A -> Prog B) : Prog B :=
  match m with
  | Ret a => f a
  | Throw e => Throw e
  | Emit eff k => Emit eff (bind k f)
  | Set_ s k => Set_ s (bind k f)
  | AwaitAll calls k => AwaitAll calls (fun o => bind (k o) f)
  | AwaitValidate sku k => AwaitValidate sku (fun o => bind (k o) f)
  end.

(** [try { body } catch (error) { handler error }] *)
Fixpoint try_catch {A} (body : Prog A) (handler : JsObject -> Prog A) : Prog A :=
  match body with
  | Ret a => Ret a
  | Throw e => handler e
  | Emit eff k => Emit eff (try_catch k handler)
  | Set_ s k => Set_ s (try_catch k handler)
  | AwaitAll calls k => AwaitAll calls (fun o => try_catch (k o) handler)
  | AwaitValidate sku k => AwaitValidate sku (fun o => try_catch (k o) handler)
  end.

#[global] Instance Prog_ret : MRet Prog := fun A a => Ret a.
#[global] Instance Prog_bind : MBind Prog := fun A B f m => bind m f.

Definition emit (eff : Effect) : Prog unit := Emit eff (Ret tt).
Definition set_ (s : Setter) : Prog unit := Set_ s (Ret tt).

(** [await p]: resume with the value, or throw the rejection reason. *)
Definition resume {A} (o : Settled A) : Prog A :=
  match o with
  | Fulfilled a => Ret a
  | Rejected e => Throw e
  end.

Definition await_all (calls : list HookCall) : Prog unit := AwaitAll calls resume.
Definition await_call (c : HookCall) : Prog unit := await_all [c].
Definition await_validateReceipt (sku : string) : Prog (option ValidationResult) :=
  AwaitValidate sku resume.

Definition alert (title message : string) : Prog unit :=
  emit (Alert_alert {| alert_title := title; alert_message := message; alert_buttons := [] |}).

(** ** [handleOperation] *)

(** [products.length > 0 ? products[0].id :
     (subscriptions.length > 0 ? subscriptions[0].id : null)] *)
Definition productToValidate (h : Hook) : option string :=
  if bool_decide (0 < length (products h)) then Product.id <$> products h !! 0
  else if bool_decide (0 < length (subscriptions h))
       then Subscription.id <$> subscriptions h !! 0
       else None.

Definition iosValidationMessage (result : ValidationResult) : string :=
  ("Result: " +:+ (if isValid result then "Valid" else "Invalid") +:+ nl) +:+
  ("Receipt data available: " +:+
     (if truthy (receiptData result) then "Yes" else "No") +:+ nl) +:+
  ("JWS data available: " +:+
     (if truthy (jwsRepresentation result) then "Yes" else "No")).

Definition androidValidationMessage : string :=
  ("Android receipt validation requires additional server parameters." +:+ nl +:+ nl) +:+
  ("For a real app, you would need:" +:+ nl) +:+
  ("- packageName" +:+ nl) +:+
  ("- productToken" +:+ nl) +:+
  "- accessToken".

(** The [validateReceipt] case of the switch, after [productToValidate] has
    been found to be truthy.  The promise may be fulfilled with [undefined]
    or [null] ([None]); the state is then set to it, and reading
    [result.isValid] for the alert's text throws. *)
Definition validateBranch (os : PlatformOS) (productToValidate : string) : Prog unit :=
  set_ (setValidationResult None) ;;
  match os with
  | ios =>
      result ← await_validateReceipt productToValidate;
      set_ (setValidationResult result) ;;
      match result with
      | Some r => alert "iOS Receipt Validation" (iosValidationMessage r)
      | None => Throw (TypeError "Cannot read properties of undefined (reading 'isValid')")
      end
  | android =>
      alert "Android Receipt Validation" androidValidationMessage
  | _ => Ret tt
  end.

Definition handleOperation (os : PlatformOS) (h : Hook) (operation : Operation)
  : Prog unit :=
  if negb (connected h) then
    alert "Not Connected" "Please wait for IAP to connect." ;;
    Ret tt
  else
    try_catch
      (match operation with
       | getProductsOp => await_call (GetProducts productSkus)
       | getSubscriptionsOp => await_call (GetSubscriptions subscriptionSkus)
       | validateReceiptOp =>
           match productToValidate h with
           | Some p =>
               if truthy (Some p) then validateBranch os p
               else alert "No Products" "Please fetch products first" ;; Ret tt
           | None => alert "No Products" "Please fetch products first" ;; Ret tt
           end
       end)
      (fun error =>
         emit (console_error ("Error in " +:+ operation_name operation +:+ ":") error) ;;
         match String_ error with
         | Some message => alert ("Error in " +:+ operation_name operation) message
         | None => Throw (TypeError "Cannot convert object to primitive value")
         end).

(** ** The first effect and [initializeIAP] *)

Definition initCalls : list HookCall :=
  [ GetProducts productSkus; GetSubscriptions subscriptionSkus ].

Definition initializeIAP : Prog unit :=
  try_catch
    (await_all initCalls ;;
     set_ (setIsReady true))
    (fun error => emit (console_error "Error initializing IAP:" error)).

(** [useEffect(() => { if (!connected) return; ... initializeIAP(); },
     [connected, getProducts, getSubscriptions])] *)
Definition fetchEffect (h : Hook) : Prog unit :=
  if negb (connected h) then Ret tt else initializeIAP.

(** ** The second effect: purchase updates and errors *)

Definition deferAlert (title message : string) (buttons : list AlertButton) : Prog unit :=
  emit (runAfterInteractions
          {| alert_title := title; alert_message := message; alert_buttons := buttons |}).

Definition purchaseEffect (h : Hook) : Prog unit :=
  match currentPurchase h with
  | Some p => deferAlert "Purchase updated" (JSON_stringify p) []
  | None => Ret tt
  end ;;
  match currentPurchaseError h with
  | Some e => deferAlert "Purchase error" (JSON_stringify e) []
  | None => Ret tt
  end.

(** ** The callbacks handed to [useIAP] *)

Definition onPurchaseSuccess (purchase : JsObject) : Prog unit :=
  deferAlert "Purchase successful" (JSON_stringify purchase) [].

Definition onPurchaseError (error : JsObject) : Prog unit :=
  deferAlert "Purchase failed" (JSON_stringify error) [].

Definition syncErrorMessage : string :=
  "Failed to synchronize with App Store. You may need to enter your password to verify subscriptions.".

(** The handler of the alert's OK button: [() => setSyncError(null)]. *)
Definition acknowledge : list Setter := [ setSyncError None ].

Definition onSyncError (error : JsObject) : Prog unit :=
  emit (console_log "Sync error occurred:" error) ;;
  set_ (setSyncError (Some error)) ;;
  deferAlert "Sync Error" syncErrorMessage [ {| text := "OK"; onPress := acknowledge |} ].

(** ** Render *)

Definition productButton (item : Product.t) : list PurchaseArgs :=
  match Product.platform item with
  | android =>
      [ {| request := ReqSkus [Product.id item] None; type := None |} ]
  | ios =>
      [ {| request := ReqSku (Product.id item); type := None |} ]
  | _ => []
  end.

(** [subscriptionOffers: offer.offerToken ? [{sku: item.id, offerToken}] : []] *)
Definition offerButton (item : Subscription.t) (offer : Offer.t) : PurchaseArgs :=
  {| request :=
       ReqSkus [Subscription.id item]
         (Some (match Offer.offerToken offer with
                | Some tok =>
                    if truthy (Some tok)
                    then [ {| so_sku := Subscription.id item; so_offerToken := tok |} ]
                    else []
                | None => []
                end));
     type := Some subs |}.

Definition subscriptionButtons (item : Subscription.t) : list PurchaseArgs :=
  match Subscription.platform item with
  | android =>
      match Subscription.subscriptionOfferDetails item with
      | Some offers => map (offerButton item) offers
      | None => []
      end
  | ios =>
      [ {| request := ReqSku (Subscription.id item); type := Some subs |} ]
  | _ => []
  end.

Inductive Content :=
| NotConnectedText
| LoadingText
| Catalogue (buttons : list PurchaseArgs).

Record View := {
  errorBanner : bool;
  operationButtons : list Operation;
  validationPanel : option ValidationResult;
  content : Content;
}.

Definition render (h : Hook) (c : Comp) : View :=
  {| errorBanner := bool_decide (is_Some (syncError c));
     operationButtons := operations;
     validationPanel := validationResult c;
     content :=
       if negb (connected h) then NotConnectedText
       else if negb (isReady c) then LoadingText
       else Catalogue (flat_map productButton (products h) ++
                       flat_map subscriptionButtons (subscriptions h)) |}.

Definition purchaseButtons (v : View) : list PurchaseArgs :=
  match content v with
  | Catalogue buttons => buttons
  | _ => []
  end.

(** The [onPress] of a Buy/Subscribe button: the call is neither awaited nor
    is its value used. *)
Definition pressPurchase (args : PurchaseArgs) : Prog unit :=
  emit (Call (RequestPurchase args)).

#[global] Instance SubscriptionOffer_eq_dec : EqDecision SubscriptionOffer.
Proof. solve_decision. Defined.
#[global] Instance Request_eq_dec : EqDecision Request.
Proof. solve_decision. Defined.
#[global] Instance PurchaseType_eq_dec : EqDecision PurchaseType.
Proof. solve_decision. Defined.
#[global] Instance PurchaseArgs_eq_dec : EqDecision PurchaseArgs.
Proof. solve_decision. Defined.

(** ** Running one asynchronous function to completion

    [exec] runs a program in one go, the hook's promises settling as [env]
    says; it is how a single call of [handleOperation] is observed. *)

Record Oracle := {
  settle_fetch : HookCall -> Settled unit;
  settle_validate : string -> Settled (option ValidationResult);
}.

Inductive Completion (A : Type) :=
| Returned (a : A)
| Threw (e : JsObject).
Arguments Returned {A} a.
Arguments Threw {A} e.

Fixpoint exec {A} (env : Oracle) (p : Prog A) (c : Comp)
  : Completion A * Comp * list Effect :=
  match p with
  | Ret a => (Returned a, c, [])
  | Throw e => (Threw e, c, [])
  | Emit eff k =>
      let '(r, c', l) := exec env k c in (r, c', eff :: l)
  | Set_ s k => exec env k (apply_setter s c)
  | AwaitAll calls k =>
      let '(r, c', l) := exec env (k (Promise_all (map (settle_fetch env) calls))) c in
      (r, c', map Call calls ++ l)
  | AwaitValidate sku k =>
      let '(r, c', l) := exec env (k (settle_validate env sku)) c in
      (r, c', Call (ValidateReceipt sku) :: l)
  end.

(** ** The event loop

    Between events the component sits with its hook values, its state, the
    awaits that have not settled yet, the tasks handed to
    [InteractionManager.runAfterInteractions] that have not run yet, and the
    alerts on screen. *)

Inductive Task :=
| TaskAll (calls : list HookCall) (k : Settled unit -> Prog unit)
| TaskValidate (sku : string) (k : Settled (option ValidationResult) -> Prog unit).

Inductive Status :=
| Finished
| Escaped (e : JsObject)
| Waiting (t : Task).

Record Run := {
  run_comp : Comp;
  run_effects : list Effect;
  run_status : Status;
}.

(** Run a program up to its first await (the awaited calls are issued
    before the function suspends). *)
Fixpoint start (p : Prog unit) (c : Comp) : Run :=
  match p with
  | Ret _ => {| run_comp := c; run_effects := []; run_status := Finished |}
  | Throw e => {| run_comp := c; run_effects := []; run_status := Escaped e |}
  | Emit eff k =>
      let r := start k c in
      {| run_comp := run_comp r; run_effects := eff :: run_effects r;
         run_status := run_status r |}
  | Set_ s k => start k (apply_setter s c)
  | AwaitAll calls k =>
      {| run_comp := c; run_effects := map Call calls;
         run_status := Waiting (TaskAll calls k) |}
  | AwaitValidate sku k =>
      {| run_comp := c; run_effects := [Call (ValidateReceipt sku)];
         run_status := Waiting (TaskValidate sku k) |}
  end.

Record App := {
  hook : Hook;
  comp : Comp;
  pending : list Task;
  scheduled : list AlertSpec;
  alerts : list AlertSpec;
  (* what was thrown out of an asynchronous function: its promise is
     rejected and nothing handles the rejection *)
  uncaught : list JsObject;
}.

Definition deferred (e : Effect) : list AlertSpec :=
  match e with runAfterInteractions a => [a] | _ => [] end.

Definition shown (e : Effect) : list AlertSpec :=
  match e with Alert_alert a => [a] | _ => [] end.

Definition launch (p : Prog unit) (a : App) : App * list Effect :=
  let r := start p (comp a) in
  ({| hook := hook a;
      comp := run_comp r;
      pending := pending a ++ match run_status r with Waiting t => [t] | _ => [] end;
      scheduled := scheduled a ++ flat_map deferred (run_effects r);
      alerts := alerts a ++ flat_map shown (run_effects r);
      uncaught := uncaught a ++ match run_status r with Escaped e => [e] | _ => [] end |},
   run_effects r).

Definition andThen (f g : App -> App * list Effect) (a : App) : App * list Effect :=
  let '(a1, l1) := f a in
  let '(a2, l2) := g a1 in
  (a2, l1 ++ l2).

Definition with_hook (h : Hook) (a : App) : App :=
  {| hook := h; comp := comp a; pending := pending a; scheduled := scheduled a;
     alerts := alerts a; uncaught := uncaught a |}.

Definition with_pending (ts : list Task) (a : App) : App :=
  {| hook := hook a; comp := comp a; pending := ts; scheduled := scheduled a;
     alerts := alerts a; uncaught := uncaught a |}.

(** First render: both effects run. *)
Definition mount (h : Hook) : App * list Effect :=
  andThen (launch (fetchEffect h)) (launch (purchaseEffect h))
    {| hook := h; comp := initialComp; pending := []; scheduled := [];
       alerts := []; uncaught := [] |}.

(** A later render with new hook values: an effect runs again when one of
    its dependencies changed.  React compares dependencies with [Object.is]:
    a boolean by value, a function or an object by identity, so that an
    object changed in place is the same dependency. *)
Definition rerender (h' : Hook) (a : App) : App * list Effect :=
  let h := hook a in
  let fetchDeps := bool_decide (connected h = connected h' ∧ fetchers h = fetchers h') in
  let purchaseDeps :=
    bool_decide (ref <$> currentPurchase h = ref <$> currentPurchase h' ∧
                 ref <$> currentPurchaseError h = ref <$> currentPurchaseError h') in
  andThen
    (if fetchDeps then (fun a => (a, [])) else launch (fetchEffect h'))
    (if purchaseDeps then (fun a => (a, [])) else launch (purchaseEffect h'))
    (with_hook h' a).

Inductive Settlement :=
| SettleAll (outs : list (Settled unit))
| SettleValidate (o : Settled (option ValidationResult)).

Inductive Event :=
| HookUpdate (h : Hook)
| PurchaseSuccess (purchase : JsObject)
| PurchaseError (error : JsObject)
| SyncError (error : JsObject)
| PressOperation (operation : Operation)
| PressPurchase (args : PurchaseArgs)
| PressAlert (i j : nat)
| Idle
| Settle (i : nat) (o : Settlement).

(** Pressing a button of the [i]-th open alert closes it and runs the
    button's handler; an alert given no buttons has a plain OK. *)
Definition pressAlert (i j : nat) (a : App) : option (App * list Effect) :=
  al ← alerts a !! i;
  handler ← match alert_buttons al with
            | [] => if bool_decide (j = 0) then Some [] else None
            | buttons => onPress <$> buttons !! j
            end;
  Some ({| hook := hook a;
           comp := foldl (fun c s => apply_setter s c) (comp a) handler;
           pending := pending a;
           scheduled := scheduled a;
           alerts := delete i (alerts a);
           uncaught := uncaught a |}, []).

Definition idle (a : App) : App * list Effect :=
  ({| hook := hook a; comp := comp a; pending := pending a; scheduled := [];
      alerts := alerts a ++ scheduled a; uncaught := uncaught a |},
   map Alert_alert (scheduled a)).

Definition settle (i : nat) (o : Settlement) (a : App) : option (App * list Effect) :=
  t ← pending a !! i;
  match t, o with
  | TaskAll calls k, SettleAll outs =>
      if bool_decide (length outs = length calls)
      then Some (launch (k (Promise_all outs)) (with_pending (delete i (pending a)) a))
      else None
  | TaskValidate sku k, SettleValidate out =>
      Some (launch (k out) (with_pending (delete i (pending a)) a))
  | _, _ => None
  end.

(** One event; [None] when the event cannot happen in this state (a button
    that is not on screen, an await that is not pending). *)
Definition step (os : PlatformOS) (ev : Event) (a : App) : option (App * list Effect) :=
  match ev with
  | HookUpdate h' => Some (rerender h' a)
  | PurchaseSuccess purchase => Some (launch (onPurchaseSuccess purchase) a)
  | PurchaseError error => Some (launch (onPurchaseError error) a)
  | SyncError error => Some (launch (onSyncError error) a)
  | PressOperation operation =>
      if bool_decide (operation ∈ operationButtons (render (hook a) (comp a)))
      then Some (launch (handleOperation os (hook a) operation) a)
      else None
  | PressPurchase args =>
      if bool_decide (args ∈ purchaseButtons (render (hook a) (comp a)))
      then Some (launch (pressPurchase args) a)
      else None
  | PressAlert i j => pressAlert i j a
  | Idle => Some (idle a)
  | Settle i o => settle i o a
  end.

(** A run of events from a state, with everything it emitted. *)
Fixpoint run (os : PlatformOS) (evs : list Event) (a : App) : option (App * list Effect) :=
  match evs with
  | [] => Some (a, [])
  | ev :: rest =>
      '(a1, l1) ← step os ev a;
      '(a2, l2) ← run os rest a1;
      Some (a2, l1 ++ l2)
  end.

(** The states the screen can be in: mounted with some hook values, then
    any events. *)
Definition reachable (os : PlatformOS) (a : App) : Prop :=
  ∃ h evs l, run os evs (mount h).1 = Some (a, l).

(* ===================================================================== *)
(** * Part II.  The orchestration core, from the specification            *)
(* ===================================================================== *)

(** The [useIAP] hook, the functions it returns ([getProducts],
    [getSubscriptions], [requestPurchase]) and the listener plumbing behind
    [onPurchaseSuccess]/[onPurchaseError] are imported from the package and
    are not among the sources.  The definitions of this module follow the
    specification's sections 3 and 4 instead; each says which sentence it
    renders.  The store's answers are inputs. *)
Module Core.

(** Modelled from the spec: ConnectionState (section 3), the connection
    state the absent Connection Manager owns. *)
Inductive ConnectionState := Disconnected | Connecting | Connected.

#[global] Instance ConnectionState_eq_dec : EqDecision ConnectionState.
Proof. solve_decision. Defined.

(** Modelled from the spec: the [platform: enum{ios,android}] of the
    descriptors (section 3). *)
Inductive Platform := Ios | Android.

#[global] Instance Platform_eq_dec : EqDecision Platform.
Proof. solve_decision. Defined.

(** Modelled from the spec: the error taxonomy of section 7, as far as it
    is reported synchronously at a call site. *)
Inductive Error := NotConnected | CatalogFetchFailed | PurchaseRequestRejected.

(** What a call of the core reports at the call site. *)
Inductive Result (A : Type) :=
| Ok (a : A)
| Err (e : Error).
Arguments Ok {A} a.
Arguments Err {A} e.

(** Modelled from the spec: the descriptors of section 3. *)
Record OfferDetail := {
  offerToken : string;
  billingPeriods : list string;
}.

Record ProductDescriptor := {
  p_id : string;
  p_title : string;
  p_platform : Platform;
  p_price : string;
}.

Record SubscriptionDescriptor := {
  s_id : string;
  s_title : string;
  s_platform : Platform;
  s_price : string;
  s_offers : list OfferDetail;
}.

(** Modelled from the spec: PurchaseIntent (section 3), [{skus, type,
    platform-specific offer token}]. *)
Record PurchaseIntent := {
  skus : list string;
  kind : PurchaseType;
  offerTokens : list string;
}.

#[global] Instance PurchaseIntent_eq_dec : EqDecision PurchaseIntent.
Proof. solve_decision. Defined.

(** Modelled from the spec: PurchaseResult and SyncError (section 3); a
    result is correlated with a request by SKU (section 4.4). *)
Inductive PurchaseResult :=
| Success (sku : string) (record : string)
| Failure (sku : string) (reason : string).

Inductive ChannelEvent :=
| PurchaseResultEvent (r : PurchaseResult)
| SyncErrorEvent (cause : string).

(** Modelled from the spec: the outputs to the store collaborator of
    section 6 (fetch-catalogue calls keyed by SKU lists, purchase-request
    calls). *)
Inductive StoreCall :=
| FetchProducts (ids : list string)
| FetchSubscriptions (ids : list string)
| PurchaseRequest (intent : PurchaseIntent).

(** Modelled from the spec: the explicit context object of section 9
    (connection, catalogue and event state in one bundle).  [inboxes] is
    what each registered listener has received so far, every event stamped
    with its emission number; [emitted] counts the store's emissions. *)
Record Context := {
  platform : Platform;
  connection : ConnectionState;
  productCache : list ProductDescriptor;
  subscriptionCache : list SubscriptionDescriptor;
  storeCalls : list StoreCall;
  inboxes : gmap nat (list (nat * ChannelEvent));
  emitted : nat;
}.

Definition with_products (ds : list ProductDescriptor) (calls : list StoreCall)
    (ctx : Context) : Context :=
  {| platform := platform ctx; connection := connection ctx;
     productCache := ds; subscriptionCache := subscriptionCache ctx;
     storeCalls := calls; inboxes := inboxes ctx; emitted := emitted ctx |}.

Definition with_subscriptions (ds : list SubscriptionDescriptor) (calls : list StoreCall)
    (ctx : Context) : Context :=
  {| platform := platform ctx; connection := connection ctx;
     productCache := productCache ctx; subscriptionCache := ds;
     storeCalls := calls; inboxes := inboxes ctx; emitted := emitted ctx |}.

Definition with_calls (calls : list StoreCall) (ctx : Context) : Context :=
  {| platform := platform ctx; connection := connection ctx;
     productCache := productCache ctx; subscriptionCache := subscriptionCache ctx;
     storeCalls := calls; inboxes := inboxes ctx; emitted := emitted ctx |}.

(** Modelled from the spec: Catalog Sync's [fetchProducts] (section 4.2),
    absent from the sources.  "Precondition: ConnectionState = Connected,
    else fails with NotConnected"; "Empty input list is valid and yields an
    empty result, not an error"; "Result replaces any previously cached list
    for that category entirely"; "Network/store failure surfaces as a
    recoverable error".  [answer] is what the store returns for the call,
    [None] when it fails. *)
Definition fetchProducts (ids : list string) (answer : option (list ProductDescriptor))
    (ctx : Context) : Result (list ProductDescriptor) * Context :=
  match connection ctx with
  | Connected =>
      match ids with
      | [] => (Ok [], with_products [] (storeCalls ctx) ctx)
      | _ =>
          let calls := storeCalls ctx ++ [FetchProducts ids] in
          match answer with
          | Some ds => (Ok ds, with_products ds calls ctx)
          | None => (Err CatalogFetchFailed, with_calls calls ctx)
          end
      end
  | _ => (Err NotConnected, ctx)
  end.

(** Modelled from the spec: Catalog Sync's [fetchSubscriptions] (section
    4.2), same contract as [fetchProducts] on the subscription category. *)
Definition fetchSubscriptions (ids : list string)
    (answer : option (list SubscriptionDescriptor))
    (ctx : Context) : Result (list SubscriptionDescriptor) * Context :=
  match connection ctx with
  | Connected =>
      match ids with
      | [] => (Ok [], with_subscriptions [] (storeCalls ctx) ctx)
      | _ =>
          let calls := storeCalls ctx ++ [FetchSubscriptions ids] in
          match answer with
          | Some ds => (Ok ds, with_subscriptions ds calls ctx)
          | None => (Err CatalogFetchFailed, with_calls calls ctx)
          end
      end
  | _ => (Err NotConnected, ctx)
  end.

(** Modelled from the spec: which intents need an offer token.  Section 3:
    the offer token is "required for android subscriptions with offers";
    a subscription has offers when its cached descriptor carries a
    non-empty OfferDetail sequence. *)
Definition offersOf (ctx : Context) (sku : string) : list OfferDetail :=
  flat_map s_offers (filter (fun d => s_id d = sku) (subscriptionCache ctx)).

(** A SKU of the intent lacks its token when it has offers and none of
    their tokens is among those the intent carries. *)
Definition lacksOfferToken (ctx : Context) (intent : PurchaseIntent) (sku : string) : bool :=
  bool_decide (offersOf ctx sku ≠ []) &&
  forallb (fun tok => bool_decide (tok ∉ map offerToken (offersOf ctx sku)))
    (offerTokens intent).

Definition missingOfferToken (ctx : Context) (intent : PurchaseIntent) : bool :=
  bool_decide (platform ctx = Android) &&
  bool_decide (kind intent = subs) &&
  existsb (lacksOfferToken ctx intent) (skus intent).

(** Modelled from the spec: Purchase Dispatcher's [requestPurchase]
    (section 4.3), absent from the sources.  "Precondition: ConnectionState
    = Connected, else fails with NotConnected, reported immediately";
    "absence of a required offer token is a caller error, signaled
    immediately"; otherwise "the call returns once the request has been
    handed to the store", and returns no purchase outcome. *)
Definition requestPurchase (intent : PurchaseIntent) (ctx : Context)
    : Result unit * Context :=
  match connection ctx with
  | Connected =>
      if missingOfferToken ctx intent
      then (Err PurchaseRequestRejected, ctx)
      else (Ok tt, with_calls (storeCalls ctx ++ [PurchaseRequest intent]) ctx)
  | _ => (Err NotConnected, ctx)
  end.

(** Modelled from the spec: the Purchase Event Channel (sections 4.4 and
    5), absent from the sources: "a broadcast, not a single-consumer
    queue"; "events are delivered in the order the underlying store emits
    them; no reordering or coalescing".  Registering a listener that is
    already registered changes nothing. *)
Definition subscribe (l : nat) (ctx : Context) : Context :=
  match inboxes ctx !! l with
  | Some _ => ctx
  | None =>
      {| platform := platform ctx; connection := connection ctx;
         productCache := productCache ctx; subscriptionCache := subscriptionCache ctx;
         storeCalls := storeCalls ctx; inboxes := <[l := []]> (inboxes ctx);
         emitted := emitted ctx |}
  end.

(** Modelled from the spec: the store emitting one event on the channel
    (section 4.4); every registered listener receives it. *)
Definition emit (e : ChannelEvent) (ctx : Context) : Context :=
  {| platform := platform ctx; connection := connection ctx;
     productCache := productCache ctx; subscriptionCache := subscriptionCache ctx;
     storeCalls := storeCalls ctx;
     inboxes := (fun log => log ++ [(emitted ctx, e)]) <$> inboxes ctx;
     emitted := S (emitted ctx) |}.

(** Modelled from the spec: a session (sections 2 and 5), one logical
    thread of control issuing the operations above while the store emits
    events. *)
Inductive Op :=
| OpFetchProducts (ids : list string) (answer : option (list ProductDescriptor))
| OpFetchSubscriptions (ids : list string) (answer : option (list SubscriptionDescriptor))
| OpRequestPurchase (intent : PurchaseIntent)
| OpSubscribe (l : nat)
| OpStoreEmits (e : ChannelEvent).

Definition apply_op (op : Op) (ctx : Context) : Context :=
  match op with
  | OpFetchProducts ids answer => (fetchProducts ids answer ctx).2
  | OpFetchSubscriptions ids answer => (fetchSubscriptions ids answer ctx).2
  | OpRequestPurchase intent => (requestPurchase intent ctx).2
  | OpSubscribe l => subscribe l ctx
  | OpStoreEmits e => emit e ctx
  end.

Definition session (ops : list Op) (ctx : Context) : Context :=
  foldl (fun c op => apply_op op c) ctx ops.

(** The store's emissions in a session, in order. *)
Definition emissions (ops : list Op) : list ChannelEvent :=
  flat_map (fun op => match op with OpStoreEmits e => [e] | _ => [] end) ops.

(** Events numbered from [n] on. *)
Fixpoint stamp (n : nat) (evs : list ChannelEvent) : list (nat * ChannelEvent) :=
  match evs with
  | [] => []
  | e :: rest => (n, e) :: stamp (S n) rest
  end.

End Core.

(** The intent a press hands to the dispatcher: the SKUs and the offer
    tokens of the [requestPurchase] argument; a missing [type] is a one-time
    purchase. *)
Definition intentOf (args : PurchaseArgs) : Core.PurchaseIntent :=
  {| Core.skus := match request args with
                  | ReqSkus skus _ => skus
                  | ReqSku sku => [sku]
                  end;
     Core.kind := default inapp (type args);
     Core.offerTokens := match request args with
                         | ReqSkus _ (Some offers) => map so_offerToken offers
                         | _ => []
                         end |}.

(* ===================================================================== *)
(** * Vocabulary of the statements                                        *)
(* ===================================================================== *)

(** The hook calls among some effects, in order. *)
Definition callsIn (l : list Effect) : list HookCall :=
  omap (fun e => match e with Call c => Some c | _ => None end) l.

(** The reason with which the promise of a call rejects, if it does. *)
Definition rejection (env : Oracle) (c : HookCall) : option JsObject :=
  match c with
  | ValidateReceipt sku =>
      match settle_validate env sku with Rejected e => Some e | Fulfilled _ => None end
  | RequestPurchase _ => None
  | _ => match settle_fetch env c with Rejected e => Some e | Fulfilled _ => None end
  end.

Definition plainAlert (title message : string) : AlertSpec :=
  {| alert_title := title; alert_message := message; alert_buttons := [] |}.

Definition notConnectedAlert : Effect :=
  Alert_alert (plainAlert "Not Connected" "Please wait for IAP to connect.").

Definition noProductsAlert : Effect :=
  Alert_alert (plainAlert "No Products" "Please fetch products first").

Definition errorAlert (operation : Operation) (message : string) : Effect :=
  Alert_alert (plainAlert ("Error in " +:+ operation_name operation) message).

(** Whether an effect is an alert, shown at once or put off. *)
Definition isAlert (e : Effect) : bool :=
  match e with
  | Alert_alert _ | runAfterInteractions _ => true
  | _ => false
  end.

(** Whether [needle] occurs in [hay]. *)
Fixpoint occursIn (needle hay : string) : bool :=
  String.prefix needle hay ||
  match hay with
  | EmptyString => false
  | String _ rest => occursIn needle rest
  end.

(** The alert [onSyncError] schedules: the only one with a handler. *)
Definition syncErrorAlert : AlertSpec :=
  {| alert_title := "Sync Error"; alert_message := syncErrorMessage;
     alert_buttons := [ {| text := "OK"; onPress := acknowledge |} ] |}.

(** An effect that is neither a hook call nor an alert with a handler. *)
Definition plain (e : Effect) : Prop :=
  match e with
  | Call _ => False
  | Alert_alert a | runAfterInteractions a => alert_buttons a = []
  | _ => True
  end.

(** A program that runs to its end, or to a throw, without awaiting, emits
    plain effects only, and uses no setter outside [S]. *)
Fixpoint straight (S : Setter -> Prop) (p : Prog unit) : Prop :=
  match p with
  | Ret _ | Throw _ => True
  | Emit eff k => plain eff ∧ straight S k
  | Set_ s k => S s ∧ straight S k
  | AwaitAll _ _ | AwaitValidate _ _ => False
  end.

(** What a continuation may set once its await has settled: the ready flag,
    to [true], after the two initial fetches were both fulfilled; the
    validation result after [validateReceipt]. *)
Definition afterFetch (calls : list HookCall) (o : Settled unit) (s : Setter) : Prop :=
  s = setIsReady true ∧ calls = initCalls ∧ o = Fulfilled tt.

Definition afterValidate (s : Setter) : Prop :=
  ∃ v, s = setValidationResult v.

Definition isFetch (c : HookCall) : Prop :=
  match c with
  | GetProducts _ | GetSubscriptions _ => True
  | _ => False
  end.

(** What is known of a suspended function.  One that awaits fetches awaits
    the initial pair or the one fetch of an operation button; it resumes
    straight, and raises no alert of any kind when the fetches are the
    initial pair.  One that awaits [validateReceipt] exists on ios only,
    resumes straight and leaves as validation result the value the promise
    was fulfilled with, or what was there when the promise was rejected. *)
Definition task_ok (os : PlatformOS) (t : Task) : Prop :=
  match t with
  | TaskAll calls k =>
      Forall isFetch calls ∧
      (∀ o, straight (afterFetch calls o) (k o)) ∧
      (calls = initCalls →
       ∀ o c, Forall (fun e => isAlert e = false) (run_effects (start (k o) c))) ∧
      (calls = initCalls ∨ calls = [GetProducts productSkus] ∨
       calls = [GetSubscriptions subscriptionSkus])
  | TaskValidate sku k =>
      os = ios ∧
      (∀ o, straight afterValidate (k o)) ∧
      (∀ o c, validationResult (run_comp (start (k o) c)) =
                match o with
                | Fulfilled result => result
                | Rejected _ => validationResult c
                end)
  end.

(** A program started by an event: up to its first await it emits plain
    effects, may only reset the validation result and does not throw; what
    it leaves pending is a well-behaved task. *)
Fixpoint entry_ok (os : PlatformOS) (p : Prog unit) : Prop :=
  match p with
  | Ret _ => True
  | Throw _ => False
  | Emit eff k => plain eff ∧ entry_ok os k
  | Set_ s k => s = setValidationResult None ∧ entry_ok os k
  | AwaitAll calls k => task_ok os (TaskAll calls k)
  | AwaitValidate sku k => task_ok os (TaskValidate sku k)
  end.

Definition alert_ok (al : AlertSpec) : Prop :=
  al = syncErrorAlert ∨ alert_buttons al = [].

(** The invariant of the event loop. *)
Definition Inv (os : PlatformOS) (a : App) : Prop :=
  Forall (task_ok os) (pending a) ∧
  Forall alert_ok (scheduled a ++ alerts a) ∧
  (os = android → validationResult (comp a) = None).

(** The hook values the handlers of an event close over: those of the
    render the event arrives in. *)
Definition hookDuring (ev : Event) (a : App) : Hook :=
  match ev with
  | HookUpdate h' => h'
  | _ => hook a
  end.

(** The calls a pending task is waiting for. *)
Definition awaited (t : Task) : list HookCall :=
  match t with
  | TaskAll calls _ => calls
  | TaskValidate sku _ => [ValidateReceipt sku]
  end.

(** The one call [handleOperation] awaits for an operation. *)
Definition awaitedBy (operation : Operation) (calls : list HookCall) : Prop :=
  match operation with
  | getProductsOp => calls = [GetProducts productSkus]
  | getSubscriptionsOp => calls = [GetSubscriptions subscriptionSkus]
  | validateReceiptOp => ∃ sku, calls = [ValidateReceipt sku]
  end.

(** An effect a program started by an event may emit: a plain one, or a
    hook call other than a purchase request. *)
Definition plainOrCall (e : Effect) : Prop :=
  plain e ∨ ∃ c, e = Call c ∧ ∀ args, c ≠ RequestPurchase args.

(** The cells and the store as seen across one or more programs started by
    an event. *)
Definition framed (a a' : App) (l : list Effect) : Prop :=
  syncError (comp a') = syncError (comp a) ∧
  isReady (comp a') = isReady (comp a) ∧
  hook a' = hook a ∧
  (∀ args, RequestPurchase args ∉ callsIn l).

(** Every call a pending await is waiting for has been issued. *)
Definition logged (a : App) (L : list Effect) : Prop :=
  ∀ t, t ∈ pending a → ∀ c, c ∈ awaited t → Call c ∈ L.

(** ** Vocabulary for the render function and the effects *)

(** The SKUs a [requestPurchase] argument names, and the subscription
    offers it carries. *)
Definition skusOf (r : Request) : list string :=
  match r with
  | ReqSkus skus _ => skus
  | ReqSku sku => [sku]
  end.

Definition offersIn (r : Request) : list SubscriptionOffer :=
  match r with
  | ReqSkus _ (Some offers) => offers
  | _ => []
  end.

(** Whether a dependency of the first effect, or of the second, differs
    between the hook values of two renders: [connected] by value, the fetch
    callbacks and the two purchase objects by identity. *)
Definition fetchDepsChanged (h h' : Hook) : bool :=
  negb (bool_decide (connected h = connected h' ∧ fetchers h = fetchers h')).

Definition purchaseDepsChanged (h h' : Hook) : bool :=
  negb (bool_decide (ref <$> currentPurchase h = ref <$> currentPurchase h' ∧
                     ref <$> currentPurchaseError h = ref <$> currentPurchaseError h')).

(** The alerts the second effect puts off when it runs. *)
Definition purchaseAlerts (h : Hook) : list AlertSpec :=
  match currentPurchase h with
  | Some p => [plainAlert "Purchase updated" (JSON_stringify p)]
  | None => []
  end ++
  match currentPurchaseError h with
  | Some e => [plainAlert "Purchase error" (JSON_stringify e)]
  | None => []
  end.

(** The sync error the cell holds after some events, none of them a press
    on an alert button: the one reported last, or the one held before. *)
Fixpoint latestSyncError (evs : list Event) (held : option JsObject) : option JsObject :=
  match evs with
  | [] => held
  | SyncError e :: rest => latestSyncError rest (Some e)
  | _ :: rest => latestSyncError rest held
  end.

Definition isSyncError (ev : Event) : bool :=
  match ev with SyncError _ => true | _ => false end.

(** The alerts with a handler behind a button among some alerts, and
    those still to come up or on screen in a state. *)
Definition hasHandler (al : AlertSpec) : bool :=
  match alert_buttons al with
  | [] => false
  | _ => true
  end.

Definition syncAlertsIn (als : list AlertSpec) : nat :=
  length (filter (fun al => hasHandler al = true) als).

Definition syncAlertsOf (a : App) : nat :=
  (syncAlertsIn (scheduled a) + syncAlertsIn (alerts a))%nat.

(** The events that start from a press on an operation button or from a
    render, the only ones after which the hook is called besides a press on
    a Buy/Subscribe button. *)
Definition callsHook (ev : Event) : Prop :=
  match ev with
  | HookUpdate _ | PressOperation _ | PressPurchase _ => True
  | _ => False
  end.



(** ** Sample data *)

Module Sample.
Definition boom : JsObject := {| ref := 1; json := "{}"; str := Some "Error: boom" |}.
(* an object without prototype: [String] cannot convert it *)
Definition prototypeless : JsObject := {| ref := 2; json := "{}"; str := None |}.
Definition points : Product.t :=
  {| Product.id := "cpk.points.1000"; Product.title := "1000 points";
     Product.platform := android; Product.displayPrice := "$0.99";
     Product.formattedPrice := Some "$0.99" |}.
Definition untokened : Offer.t :=
  {| Offer.offerId := "base"; Offer.offerToken := None;
     Offer.billingPeriods := ["P1M"] |}.
Definition bronze : Subscription.t :=
  {| Subscription.id := "cpk.membership.monthly.bronze";
     Subscription.title := "Bronze"; Subscription.platform := android;
     Subscription.displayName := "Bronze"; Subscription.displayPrice := "$4.99";
     Subscription.subscriptionOfferDetails := Some [untokened] |}.
Definition offline : Hook :=
  {| connected := false; products := []; subscriptions := [];
     currentPurchase := None; currentPurchaseError := None; fetchers := 0 |}.
Definition online : Hook :=
  {| connected := true; products := [points]; subscriptions := [bronze];
     currentPurchase := None; currentPurchaseError := None; fetchers := 0 |}.
Definition bare : Hook :=
  {| connected := true; products := []; subscriptions := [];
     currentPurchase := None; currentPurchaseError := None; fetchers := 0 |}.
Definition failing : Oracle :=
  {| settle_fetch := fun _ => Rejected boom;
     settle_validate := fun _ => Rejected boom |}.
Definition unprintable : Oracle :=
  {| settle_fetch := fun _ => Rejected prototypeless;
     settle_validate := fun _ => Rejected prototypeless |}.
Definition bothFulfilled : Settlement := SettleAll [Fulfilled tt; Fulfilled tt].
(* mounted connected, then the two initial fetches are fulfilled *)
Definition readyRun : option (App * list Effect) :=
  run android [Settle 0 bothFulfilled] (mount online).1.
Definition ready : App := from_option fst (mount online).1 readyRun.
Definition readyLog : list Effect := from_option snd [] readyRun.
(* mounted connected, then a sync error is reported *)
Definition erred : App := (launch (onSyncError boom) (mount online).1).1.

Definition bronzeDescriptor : Core.SubscriptionDescriptor :=
  {| Core.s_id := "cpk.membership.monthly.bronze"; Core.s_title := "Bronze";
     Core.s_platform := Core.Android; Core.s_price := "$4.99";
     Core.s_offers := [ {| Core.offerToken := "tok-base";
                          Core.billingPeriods := ["P1M"] |} ] |}.
Definition p1 : Core.ProductDescriptor :=
  {| Core.p_id := "p1"; Core.p_title := "P1"; Core.p_platform := Core.Android;
     Core.p_price := "$1" |}.
Definition p2 : Core.ProductDescriptor :=
  {| Core.p_id := "p2"; Core.p_title := "P2"; Core.p_platform := Core.Android;
     Core.p_price := "$2" |}.
Definition session0 : Core.Context :=
  {| Core.platform := Core.Android; Core.connection := Core.Connected;
     Core.productCache := [p1; p2]; Core.subscriptionCache := [bronzeDescriptor];
     Core.storeCalls := []; Core.inboxes := ∅; Core.emitted := 0 |}.
Definition silverDescriptor : Core.SubscriptionDescriptor :=
  {| Core.s_id := "cpk.membership.monthly.silver"; Core.s_title := "Silver";
     Core.s_platform := Core.Android; Core.s_price := "$9.99";
     Core.s_offers := [ {| Core.offerToken := "tok-silver";
                          Core.billingPeriods := ["P1M"] |} ] |}.
Definition session1 : Core.Context :=
  {| Core.platform := Core.Android; Core.connection := Core.Connected;
     Core.productCache := []; Core.subscriptionCache := [bronzeDescriptor; silverDescriptor];
     Core.storeCalls := []; Core.inboxes := ∅; Core.emitted := 0 |}.
Definition bronzeResult : Core.ChannelEvent :=
  Core.PurchaseResultEvent (Core.Success "cpk.membership.monthly.bronze" "receipt").
Definition bronzeIntent : Core.PurchaseIntent :=
  {| Core.skus := ["cpk.membership.monthly.bronze"]; Core.kind := subs;
     Core.offerTokens := ["tok-base"] |}.
(* one listener, one request, and the store delivering the purchase twice *)
Definition redelivery : list Core.Op :=
  [ Core.OpSubscribe 0; Core.OpRequestPurchase bronzeIntent;
    Core.OpStoreEmits bronzeResult; Core.OpStoreEmits bronzeResult ].
End Sample.

(** ** More sample data *)

Module Tour.
Definition receipt : JsObject :=
  {| ref := 7; json := "{purchase}"; str := Some "[object Object]" |}.
Definition declined : JsObject :=
  {| ref := 8; json := "{declined}"; str := Some "Error: declined" |}.
Definition tokened : Offer.t :=
  {| Offer.offerId := "yearly"; Offer.offerToken := Some "tok-yearly";
     Offer.billingPeriods := ["P1Y"] |}.
Definition silver : Subscription.t :=
  {| Subscription.id := "cpk.membership.monthly.silver";
     Subscription.title := "Silver"; Subscription.platform := android;
     Subscription.displayName := "Silver"; Subscription.displayPrice := "$9.99";
     Subscription.subscriptionOfferDetails := Some [Sample.untokened; tokened] |}.
Definition stocked : Hook :=
  {| connected := true; products := [Sample.points]; subscriptions := [silver];
     currentPurchase := None; currentPurchaseError := None; fetchers := 0 |}.
(* the hook values after a purchase of the points pack failed *)
Definition afterDecline : Hook :=
  {| connected := true; products := [Sample.points]; subscriptions := [silver];
     currentPurchase := Some receipt; currentPurchaseError := Some declined;
     fetchers := 0 |}.
Definition silverYearly : PurchaseArgs := offerButton silver tokened.
Definition valid : ValidationResult :=
  {| isValid := true; receiptData := Some "receipt"; jwsRepresentation := None |}.
Definition stale : Comp :=
  {| syncError := None; isReady := true; validationResult := Some valid |}.
(* ready, then the connection drops and comes back with another catalogue *)
Definition dropAndReturn : list Event := [HookUpdate Sample.offline; HookUpdate stocked].
Definition returned : App :=
  from_option fst Sample.ready (run android dropAndReturn Sample.ready).
Definition returnedLog : list Effect :=
  from_option snd [] (run android dropAndReturn Sample.ready).
(* on ios: a validation that succeeded, then the button is pressed again *)
Definition validatedOnce : App :=
  from_option fst (mount Sample.online).1
    (run ios [PressOperation validateReceiptOp;
              Settle 1 (SettleValidate (Fulfilled (Some valid)))] (mount Sample.online).1).
Definition validatingAgain : App :=
  from_option fst validatedOnce (step ios (PressOperation validateReceiptOp) validatedOnce).
Definition validatingAgainLog : list Effect :=
  from_option snd [] (step ios (PressOperation validateReceiptOp) validatedOnce).
(* on ios: the button pressed twice in a row, then the first validation is
   fulfilled; the second is still pending *)
Definition overlapping : App :=
  from_option fst (mount Sample.online).1
    (run ios [PressOperation validateReceiptOp; PressOperation validateReceiptOp;
              Settle 1 (SettleValidate (Fulfilled (Some valid)))] (mount Sample.online).1).
Definition secondRejected : Event := Settle 1 (SettleValidate (Rejected Sample.boom)).
Definition overlapped : App :=
  from_option fst overlapping (step ios secondRejected overlapping).
Definition overlappedLog : list Effect :=
  from_option snd [] (step ios secondRejected overlapping).
(* two sync errors in a row, the alerts coming up in between *)
Definition twoErrors : list Event := [SyncError Sample.boom; Idle; SyncError declined].
Definition erredTwice : App :=
  from_option fst Sample.ready (run android twoErrors Sample.ready).
Definition erredTwiceLog : list Effect :=
  from_option snd [] (run android twoErrors Sample.ready).
End Tour.

(* ===================================================================== *)
(** * Properties of the driver                                            *)
(* ===================================================================== *)

(** [x ∉ [a; b; ...]] when [x] differs from each by its constructor. *)
Ltac not_listed :=
  let H := fresh in
  intros H;
  repeat (apply elem_of_cons in H as [H|H]; [discriminate H|]);
  by apply elem_of_nil in H.

(** From [Some x = Some (a', l)], speak of [x.1] and [x.2]. *)
Ltac some_pair H :=
  apply (inj Some) in H;
  match type of H with
  | ?x = (?a, ?l) =>
      replace a with (x.1) in * by (by rewrite H);
      replace l with (x.2) in * by (by rewrite H);
      clear H
  end.


(** ** Programs that do not await *)

Section Straight.
Context (S : Setter → Prop).

Lemma straight_mono (S' : Setter → Prop) p :
  (∀ s, S s → S' s) → straight S p → straight S' p.
Proof.
  intros HS. induction p as [| |eff k IH|s k IH|calls k IH|sku k IH]; cbn; try done.
  - intros [? ?]; auto.
  - intros [? ?]; auto.
Qed.

Lemma start_straight_status p c :
  straight S p → ∀ t, run_status (start p c) ≠ Waiting t.
Proof.
  revert c. induction p as [| |eff k IH|s k IH|calls k IH|sku k IH];
    intros c Hp t; cbn in *; try done.
  - destruct Hp as [_ Hk]. by apply IH.
  - destruct Hp as [_ Hk]. by apply IH.
Qed.

Lemma start_straight_effects p c :
  straight S p → Forall plain (run_effects (start p c)).
Proof.
  revert c. induction p as [| |eff k IH|s k IH|calls k IH|sku k IH];
    intros c Hp; cbn in *; try done.
  - destruct Hp as [He Hk]. constructor; auto.
  - destruct Hp as [_ Hk]. by apply IH.
Qed.

(** Whatever every setter of [S] maintains, the whole program maintains. *)
Lemma start_straight_comp (P : Comp → Prop) p c :
  (∀ s c, S s → P c → P (apply_setter s c)) →
  straight S p → P c → P (run_comp (start p c)).
Proof.
  intros HS. revert c.
  induction p as [| |eff k IH|s k IH|calls k IH|sku k IH];
    intros c Hp Hc; cbn in *; try done.
  - destruct Hp as [_ Hk]. by apply IH.
  - destruct Hp as [Hs Hk]. apply IH; auto.
Qed.
End Straight.

Lemma plain_callsIn l : Forall plain l → callsIn l = [].
Proof.
  induction 1 as [|e l He _ IH]; [done|].
  unfold callsIn in *. cbn. destruct e; cbn in *; try done.
Qed.

Lemma plain_deferred_ok l : Forall plain l → Forall alert_ok (flat_map deferred l).
Proof.
  induction 1 as [|e l He _ IH]; cbn; [constructor|].
  apply Forall_app; split; [|done].
  destruct e; cbn in *; try (by constructor).
  apply Forall_singleton. by right.
Qed.

Lemma plain_shown_ok l : Forall plain l → Forall alert_ok (flat_map shown l).
Proof.
  induction 1 as [|e l He _ IH]; cbn; [constructor|].
  apply Forall_app; split; [|done].
  destruct e; cbn in *; try (by constructor).
  apply Forall_singleton. by right.
Qed.

(** ** Programs started by an event *)

Lemma start_entry_effects os p c :
  entry_ok os p → Forall plainOrCall (run_effects (start p c)).
Proof.
  revert c. induction p as [| |eff k IH|s k IH|calls k IH|sku k IH];
    intros c Hp; cbn in *; try done.
  - destruct Hp as [He Hk]. constructor; [unfold plainOrCall; by left|auto].
  - destruct Hp as [_ Hk]. by apply IH.
  - destruct Hp as [Hf _]. apply Forall_fmap.
    eapply Forall_impl; [exact Hf|]. intros x Hx. unfold plainOrCall. right.
    exists x. split; [done|]. intros args ->. done.
  - apply Forall_singleton. unfold plainOrCall. right. by eexists.
Qed.

Lemma start_entry_status os p c t :
  entry_ok os p → run_status (start p c) = Waiting t →
  task_ok os t ∧
  Forall (fun call => Call call ∈ run_effects (start p c)) (awaited t).
Proof.
  revert c. induction p as [| |eff k IH|s k IH|calls k IH|sku k IH];
    intros c Hp Ht; cbn in *; try done.
  - destruct Hp as [_ Hk]. destruct (IH c Hk Ht) as (?&Hall).
    split; [done|].
    eapply Forall_impl; [exact Hall|]. intros x Hx. by right.
  - destruct Hp as [_ Hk]. by apply IH.
  - injection Ht as <-. split; [done|]. cbn.
    apply Forall_forall. intros x Hx. by apply list_elem_of_fmap_2.
  - injection Ht as <-. split; [done|]. cbn. repeat constructor.
Qed.

Lemma start_entry_comp os p c :
  entry_ok os p →
  syncError (run_comp (start p c)) = syncError c ∧
  isReady (run_comp (start p c)) = isReady c ∧
  (validationResult (run_comp (start p c)) = validationResult c ∨
   validationResult (run_comp (start p c)) = None).
Proof.
  revert c. induction p as [| |eff k IH|s k IH|calls k IH|sku k IH];
    intros c Hp; cbn in *; try by auto.
  - destruct Hp as [_ Hk]. by apply IH.
  - destruct Hp as [-> Hk]. destruct (IH (apply_setter (setValidationResult None) c) Hk)
      as (H1 & H2 & H3).
    cbn in *. split_and!; [done..|]. destruct H3; auto.
Qed.

(** ** The driver's programs are well behaved *)

Lemma handleOperation_entry os h operation : entry_ok os (handleOperation os h operation).
Proof.
  unfold handleOperation. destruct (connected h); cbn [negb]; [|by cbn].
  destruct operation.
  - cbn. split_and!; [by repeat constructor| |done|auto].
    intros [[]|e]; cbn; [done|]. by destruct (String_ e).
  - cbn. split_and!; [by repeat constructor| |done|auto].
    intros [[]|e]; cbn; [done|]. by destruct (String_ e).
  - destruct (productToValidate h) as [p|]; [|by cbn].
    destruct (truthy (Some p)); [|by cbn].
    destruct os; cbn; try by auto.
    split; [done|]. split_and!; [done| |].
    + intros [[r|]|e]; cbn; unfold afterValidate; eauto.
      destruct (String_ e); cbn; eauto.
    + intros [[r|]|e] c; cbn; try done. by destruct (String_ e).
Qed.

Lemma initializeIAP_entry os : entry_ok os initializeIAP.
Proof.
  cbn. split_and!; [by repeat constructor| | |by left].
  - intros [[]|e]; cbn; unfold afterFetch; auto.
  - intros _ [[]|e] c; cbn; by repeat constructor.
Qed.

Lemma fetchEffect_entry os h : entry_ok os (fetchEffect h).
Proof.
  unfold fetchEffect. destruct (connected h); cbn [negb]; [|done].
  apply initializeIAP_entry.
Qed.

Lemma purchaseEffect_entry os h : entry_ok os (purchaseEffect h).
Proof.
  unfold purchaseEffect.
  destruct (currentPurchase h), (currentPurchaseError h); by cbn.
Qed.

Lemma onPurchaseSuccess_entry os p : entry_ok os (onPurchaseSuccess p).
Proof. by cbn. Qed.

Lemma onPurchaseError_entry os e : entry_ok os (onPurchaseError e).
Proof. by cbn. Qed.

(** ** The invariant holds in every reachable state *)

Lemma launch_entry_Inv os p a :
  entry_ok os p → Inv os a → Inv os (launch p a).1.
Proof.
  intros Hp (Ht & Hal & Hv). unfold Inv, launch; simpl.
  pose proof (start_entry_effects os p (comp a) Hp) as Heff.
  assert (Forall alert_ok (flat_map deferred (run_effects (start p (comp a)))) ∧
          Forall alert_ok (flat_map shown (run_effects (start p (comp a))))) as [Hd Hs].
  { induction Heff as [|e l He _ IH]; cbn; [by split; constructor|].
    destruct IH as [IH1 IH2]. split; apply Forall_app; split; try done.
    - destruct He as [He|(c0 & -> & _)]; [|constructor].
      destruct e; cbn in *; try (by constructor). apply Forall_singleton. by right.
    - destruct He as [He|(c0 & -> & _)]; [|constructor].
      destruct e; cbn in *; try (by constructor). apply Forall_singleton. by right. }
  split_and!.
  - apply Forall_app; split; [done|].
    destruct (run_status (start p (comp a))) as [| |t] eqn:Hst;
      [constructor|constructor|].
    apply Forall_singleton.
    by destruct (start_entry_status os p (comp a) t Hp Hst).
  - apply Forall_app in Hal as [H1 H2].
    rewrite !Forall_app. split_and!; done.
  - intros Hos. destruct (start_entry_comp os p (comp a) Hp) as (_ & _ & [H|H]);
      [rewrite H; auto|done].
Qed.

Lemma afterFetch_validation calls o s c :
  afterFetch calls o s → validationResult (apply_setter s c) = validationResult c.
Proof. by intros (-> & _). Qed.

Lemma launch_straight_Inv os S p a :
  straight S p →
  (os = android → ∀ s c, S s → validationResult (apply_setter s c) = validationResult c) →
  Inv os a → Inv os (launch p a).1.
Proof.
  intros Hp HS (Ht & Hal & Hv). unfold Inv, launch; simpl.
  pose proof (start_straight_effects S p (comp a) Hp) as Heff.
  split_and!.
  - apply Forall_app; split; [done|].
    destruct (run_status (start p (comp a))) as [| |t] eqn:Hst;
      [constructor|constructor|].
    by destruct (start_straight_status S p (comp a) Hp t).
  - apply Forall_app in Hal as [H1 H2].
    rewrite !Forall_app. split_and!; try done.
    + by apply plain_deferred_ok.
    + by apply plain_shown_ok.
  - intros Hos.
    apply (start_straight_comp S (fun c => validationResult c = None)); auto.
    intros s c Hs Hc. rewrite (HS Hos s c Hs). done.
Qed.

Lemma with_pending_Inv os ts a :
  Forall (task_ok os) ts → Inv os a → Inv os (with_pending ts a).
Proof. intros Hts (_ & ? & ?). by split_and!. Qed.

Lemma andThen_Inv os (f g : App → App * list Effect) a :
  (∀ a, Inv os a → Inv os (f a).1) →
  (∀ a, Inv os a → Inv os (g a).1) →
  Inv os a → Inv os (andThen f g a).1.
Proof.
  intros Hf Hg Ha. unfold andThen.
  specialize (Hf a Ha). destruct (f a) as [a1 l1]. cbn in Hf.
  specialize (Hg a1 Hf). by destruct (g a1) as [a2 l2].
Qed.

Lemma mount_Inv os h : Inv os (mount h).1.
Proof.
  unfold mount. apply andThen_Inv.
  - intros a. apply launch_entry_Inv, fetchEffect_entry.
  - intros a. apply launch_entry_Inv, purchaseEffect_entry.
  - split_and!; by try constructor.
Qed.

Lemma rerender_Inv os h' a : Inv os a → Inv os (rerender h' a).1.
Proof.
  intros Ha. unfold rerender. apply andThen_Inv.
  - intros a0. case_bool_decide; [done|]. apply launch_entry_Inv, fetchEffect_entry.
  - intros a0. case_bool_decide; [done|]. apply launch_entry_Inv, purchaseEffect_entry.
  - done.
Qed.

Lemma onSyncError_Inv os e a : Inv os a → Inv os (launch (onSyncError e) a).1.
Proof.
  intros (Ht & Hal & Hv). unfold Inv; cbn. split_and!.
  - by rewrite app_nil_r.
  - apply Forall_app in Hal as [H1 H2]. rewrite app_nil_r, !Forall_app.
    split_and!; try done. apply Forall_singleton. by left.
  - done.
Qed.

Lemma pressPurchase_Inv os args a : Inv os a → Inv os (launch (pressPurchase args) a).1.
Proof.
  intros (Ht & Hal & Hv). unfold Inv; cbn. by rewrite !app_nil_r.
Qed.

Lemma alert_ok_handler al b :
  alert_ok al → b ∈ alert_buttons al → onPress b = acknowledge.
Proof.
  intros [->|Hb] Hin.
  - cbn in Hin. by apply list_elem_of_singleton in Hin as ->.
  - rewrite Hb in Hin. by apply elem_of_nil in Hin.
Qed.

(** What pressing a button of an open alert runs: nothing, or the
    acknowledgment. *)
Lemma pressAlert_inv os i j a a' l :
  Inv os a → pressAlert i j a = Some (a', l) →
  ∃ al handler,
    alerts a !! i = Some al ∧
    (handler = [] ∨ (al = syncErrorAlert ∧ handler = acknowledge)) ∧
    l = [] ∧
    a' = {| hook := hook a;
            comp := foldl (fun c s => apply_setter s c) (comp a) handler;
            pending := pending a; scheduled := scheduled a;
            alerts := delete i (alerts a); uncaught := uncaught a |}.
Proof.
  intros (_ & Hal & _) Hp. unfold pressAlert in Hp.
  destruct (alerts a !! i) as [al|] eqn:Hi; [|done]. cbn in Hp.
  assert (alert_ok al) as Hok.
  { apply Forall_app in Hal as [_ H2].
    eapply Forall_forall; [exact H2|]. by eapply list_elem_of_lookup_2. }
  exists al.
  destruct Hok as [->|Hb].
  - cbn in Hp. destruct j as [|j]; cbn in Hp; [|done].
    injection Hp as <- <-. exists acknowledge. split_and!; auto.
  - rewrite Hb in Hp. case_bool_decide; [|done]. cbn in Hp.
    injection Hp as <- <-. exists []. split_and!; auto.
Qed.

Lemma pressAlert_Inv os i j a a' l :
  Inv os a → pressAlert i j a = Some (a', l) → Inv os a'.
Proof.
  intros Ha Hp. destruct (pressAlert_inv os i j a a' l Ha Hp)
    as (al & handler & Hi & Hh & -> & ->).
  destruct Ha as (Ht & Hal & Hv). apply Forall_app in Hal as [H1 H2].
  unfold Inv; cbn. split_and!; [done| |].
  - apply Forall_app; split; [done|]. by apply Forall_delete.
  - intros Hos. destruct Hh as [->|[_ ->]]; cbn; auto.
Qed.

Lemma idle_Inv os a : Inv os a → Inv os (idle a).1.
Proof.
  intros (Ht & Hal & Hv). apply Forall_app in Hal as [H1 H2].
  unfold Inv; cbn. split_and!; [done| |done].
  by apply Forall_app.
Qed.

Lemma settle_Inv os i o a a' l :
  Inv os a → settle i o a = Some (a', l) → Inv os a'.
Proof.
  intros Ha Hs. unfold settle in Hs.
  destruct (pending a !! i) as [t|] eqn:Hi; [|done]. cbn in Hs.
  assert (task_ok os t) as Hok.
  { destruct Ha as (Ht & _). eapply Forall_forall; [exact Ht|].
    by eapply list_elem_of_lookup_2. }
  assert (Inv os (with_pending (delete i (pending a)) a)) as Ha'.
  { apply with_pending_Inv; [|done]. apply Forall_delete. by destruct Ha. }
  destruct t as [calls k|sku k], o as [outs|out]; try done.
  - case_bool_decide; [|done]. injection Hs as <- <-.
    apply (launch_straight_Inv os _ (k (Promise_all outs))
             (with_pending (delete i (pending a)) a) (proj1 (proj2 Hok) _)); [|done].
    intros _ s c Hs. by eapply afterFetch_validation.
  - injection Hs as <- <-. destruct Hok as (-> & Hk & _).
    apply (launch_straight_Inv ios _ (k out)
             (with_pending (delete i (pending a)) a) (Hk _)); done.
Qed.

Lemma step_Inv os ev a a' l :
  Inv os a → step os ev a = Some (a', l) → Inv os a'.
Proof.
  intros Ha Hs. destruct ev; cbn [step] in Hs.
  - some_pair Hs. by apply rerender_Inv.
  - some_pair Hs. apply launch_entry_Inv; [apply onPurchaseSuccess_entry|done].
  - some_pair Hs. apply launch_entry_Inv; [apply onPurchaseError_entry|done].
  - some_pair Hs. by apply onSyncError_Inv.
  - case_bool_decide; [|done]. some_pair Hs.
    apply launch_entry_Inv; [apply handleOperation_entry|done].
  - case_bool_decide; [|done]. some_pair Hs. by apply pressPurchase_Inv.
  - by eapply pressAlert_Inv.
  - some_pair Hs. by apply idle_Inv.
  - by eapply settle_Inv.
Qed.

Lemma run_Inv os evs a a' l :
  Inv os a → run os evs a = Some (a', l) → Inv os a'.
Proof.
  revert a l. induction evs as [|ev evs IH]; intros a l Ha Hr; cbn in Hr.
  - by injection Hr as <- <-.
  - destruct (step os ev a) as [[a1 l1]|] eqn:Hs; [|done]. cbn in Hr.
    destruct (run os evs a1) as [[a2 l2]|] eqn:Hr'; [|done]. cbn in Hr.
    injection Hr as <- <-. eapply IH; [|exact Hr']. by eapply step_Inv.
Qed.

Lemma reachable_Inv os a : reachable os a → Inv os a.
Proof.
  intros (h & evs & l & Hr). eapply run_Inv; [|exact Hr]. apply mount_Inv.
Qed.

(** ** What each event does to the state cells and to the store *)

Lemma plainOrCall_no_purchase l args :
  Forall plainOrCall l → RequestPurchase args ∉ callsIn l.
Proof.
  induction 1 as [|e l He _ IH]; [by apply not_elem_of_nil|].
  unfold callsIn in *. cbn.
  destruct He as [He|(c0 & -> & Hc0)].
  - destruct e; cbn in *; done.
  - cbn. intros [Heq|Hin]%elem_of_cons; [exact (Hc0 args (eq_sym Heq))|done].
Qed.

Lemma callsIn_app l1 l2 : callsIn (l1 ++ l2) = callsIn l1 ++ callsIn l2.
Proof. unfold callsIn. apply omap_app. Qed.

Lemma callsIn_alerts als : callsIn (map Alert_alert als) = [].
Proof. by induction als. Qed.

Lemma launch_entry_frame os p a :
  entry_ok os p →
  syncError (comp (launch p a).1) = syncError (comp a) ∧
  isReady (comp (launch p a).1) = isReady (comp a) ∧
  hook (launch p a).1 = hook a ∧
  (∀ args, RequestPurchase args ∉ callsIn (launch p a).2).
Proof.
  intros Hp. destruct (start_entry_comp os p (comp a) Hp) as (H1 & H2 & _).
  split_and!; try done.
  intros args. apply plainOrCall_no_purchase. by eapply start_entry_effects.
Qed.

Lemma andThen_frame (Q : App → App → list Effect → Prop)
    (f g : App → App * list Effect) a :
  (∀ a, Q a a []) →
  (∀ a1 a2 a3 l1 l2, Q a1 a2 l1 → Q a2 a3 l2 → Q a1 a3 (l1 ++ l2)) →
  (∀ a, Q a (f a).1 (f a).2) →
  (∀ a, Q a (g a).1 (g a).2) →
  Q a (andThen f g a).1 (andThen f g a).2.
Proof.
  intros _ Htrans Hf Hg. unfold andThen.
  specialize (Hf a). destruct (f a) as [a1 l1].
  specialize (Hg a1). destruct (g a1) as [a2 l2]. cbn in *. eauto.
Qed.

Lemma framed_refl a : framed a a [].
Proof. split_and!; try done. intros args. apply not_elem_of_nil. Qed.

Lemma framed_trans a1 a2 a3 l1 l2 :
  framed a1 a2 l1 → framed a2 a3 l2 → framed a1 a3 (l1 ++ l2).
Proof.
  intros (H1 & H2 & H3 & H4) (G1 & G2 & G3 & G4). split_and!; try congruence.
  intros args. rewrite callsIn_app. intros [?|?]%elem_of_app; [by eapply H4|by eapply G4].
Qed.

Lemma rerender_framed h' a :
  framed (with_hook h' a) (rerender h' a).1 (rerender h' a).2.
Proof.
  unfold rerender. cbv zeta.
  apply (andThen_frame framed); [apply framed_refl|apply framed_trans| |].
  - intros a0. case_bool_decide; [apply framed_refl|].
    apply (launch_entry_frame ios), fetchEffect_entry.
  - intros a0. case_bool_decide; [apply framed_refl|].
    apply (launch_entry_frame ios), purchaseEffect_entry.
Qed.

Lemma mount_comp h : comp (mount h).1 = initialComp.
Proof.
  unfold mount, andThen, fetchEffect, purchaseEffect.
  destruct (connected h), (currentPurchase h), (currentPurchaseError h); reflexivity.
Qed.

(** Nothing is fetched on a render that is not connected. *)
Lemma rerender_offline h' a :
  connected h' = false → callsIn (rerender h' a).2 = [].
Proof.
  intros Hc. unfold rerender, andThen, fetchEffect, purchaseEffect. cbv zeta. rewrite Hc.
  repeat case_bool_decide;
    destruct (currentPurchase h'), (currentPurchaseError h'); reflexivity.
Qed.

Lemma mount_offline h : connected h = false → callsIn (mount h).2 = [].
Proof.
  intros Hc. unfold mount, andThen, fetchEffect, purchaseEffect. rewrite Hc.
  destruct (currentPurchase h), (currentPurchaseError h); reflexivity.
Qed.

(** The guard of [handleOperation]. *)
Lemma handleOperation_offline os h operation c :
  connected h = false →
  start (handleOperation os h operation) c =
    {| run_comp := c; run_effects := [notConnectedAlert]; run_status := Finished |}.
Proof. intros Hc. unfold handleOperation. by rewrite Hc. Qed.

Lemma exec_handleOperation_offline os h operation env c :
  connected h = false →
  exec env (handleOperation os h operation) c = (Returned tt, c, [notConnectedAlert]).
Proof. intros Hc. unfold handleOperation. by rewrite Hc. Qed.

(** The purchase buttons are on screen only when connected and ready. *)
Lemma purchaseButtons_guard h c args :
  args ∈ purchaseButtons (render h c) → connected h = true ∧ isReady c = true.
Proof.
  unfold purchaseButtons, render; cbn.
  destruct (connected h), (isReady c); cbn; try done; by intros ?%elem_of_nil.
Qed.

Lemma settle_inv os i o a a' l :
  Inv os a → settle i o a = Some (a', l) →
  Forall plain l ∧
  syncError (comp a') = syncError (comp a) ∧
  hook a' = hook a ∧
  (isReady (comp a') = isReady (comp a) ∨
   ∃ k, o = SettleAll [Fulfilled tt; Fulfilled tt] ∧
        pending a !! i = Some (TaskAll initCalls k) ∧ isReady (comp a') = true).
Proof.
  intros Ha Hs. unfold settle in Hs.
  destruct (pending a !! i) as [t|] eqn:Hi; [|done]. cbn in Hs.
  assert (task_ok os t) as Hok.
  { destruct Ha as (Ht & _). eapply Forall_forall; [exact Ht|].
    by eapply list_elem_of_lookup_2. }
  destruct t as [calls k|sku k], o as [outs|out]; try done.
  - case_bool_decide as Hlen; [|done]. some_pair Hs.
    destruct Hok as (_ & Hk & _). specialize (Hk (Promise_all outs)).
    unfold launch; cbn [fst snd comp hook with_pending].
    split_and!; [by eapply start_straight_effects| |done|].
    + apply (start_straight_comp (afterFetch calls (Promise_all outs))
               (fun c => syncError c = syncError (comp a))); [|done|done].
      by intros s c (-> & _) Hc.
    + pose proof (start_straight_comp (afterFetch calls (Promise_all outs))
        (fun c => isReady c = isReady (comp a) ∨
                  (calls = initCalls ∧ Promise_all outs = Fulfilled tt ∧ isReady c = true))
        (k (Promise_all outs)) (comp a)) as Hready.
      destruct Hready as [Hsame|(-> & Hall & Htrue)]; [|done|by left|by left|].
      { intros s c (-> & -> & ->) _. by right. }
      right. exists k. split_and!; [|done|done]. f_equal.
      destruct outs as [|[[]|e1] [|[[]|e2] [|? ?]]]; cbn in Hlen, Hall; try done.
  - some_pair Hs. destruct Hok as (_ & Hk & _). specialize (Hk out).
    unfold launch; cbn [fst snd comp hook with_pending].
    split_and!; [by eapply start_straight_effects| |done|left].
    + apply (start_straight_comp afterValidate
               (fun c => syncError c = syncError (comp a))); [|done|done].
      by intros s c [v ->] Hc.
    + apply (start_straight_comp afterValidate
               (fun c => isReady c = isReady (comp a))); [|done|done].
      by intros s c [v ->] Hc.
Qed.

(** One event, summarised: how the ready flag and the sync error may
    change, where a purchase request can come from, and that nothing
    reaches the hook while not connected. *)
Lemma step_cells os ev a a' l :
  Inv os a → step os ev a = Some (a', l) →
  (isReady (comp a') = isReady (comp a) ∨
   ∃ i k, ev = Settle i (SettleAll [Fulfilled tt; Fulfilled tt]) ∧
          pending a !! i = Some (TaskAll initCalls k) ∧ isReady (comp a') = true) ∧
  (syncError (comp a') = syncError (comp a) ∨
   (∃ e, ev = SyncError e ∧ syncError (comp a') = Some e) ∨
   (∃ i, ev = PressAlert i 0 ∧ alerts a !! i = Some syncErrorAlert ∧
         syncError (comp a') = None)) ∧
  (∀ args, RequestPurchase args ∈ callsIn l →
     ev = PressPurchase args ∧ connected (hook a) = true ∧ isReady (comp a) = true) ∧
  (connected (hookDuring ev a) = false → callsIn l = []).
Proof.
  intros Ha Hs. destruct ev as [h'|p|e|e|operation|args|i j| |i o]; cbn [step hookDuring] in *.
  - some_pair Hs. destruct (rerender_framed h' a) as (H1 & H2 & _ & H4).
    split_and!; [by left|by left| |by apply rerender_offline].
    intros args Hin. by destruct (H4 args).
  - some_pair Hs. cbn. split_and!; [by left|by left| |done].
    intros args Hin. by apply elem_of_nil in Hin.
  - some_pair Hs. cbn. split_and!; [by left|by left| |done].
    intros args Hin. by apply elem_of_nil in Hin.
  - some_pair Hs. cbn. split_and!; [by left|right; left; by exists e| |done].
    intros args Hin. by apply elem_of_nil in Hin.
  - case_bool_decide; [|done]. some_pair Hs.
    destruct (launch_entry_frame os _ a (handleOperation_entry os (hook a) operation))
      as (H1 & H2 & _ & H4).
    split_and!; [by left|by left| |].
    + intros args Hin. by destruct (H4 args).
    + intros Hc. unfold launch; cbn [snd]. by rewrite handleOperation_offline.
  - case_bool_decide as Hin; [|done]. some_pair Hs.
    apply purchaseButtons_guard in Hin as [Hc Hr].
    cbn. split_and!; [by left|by left| |congruence].
    intros args' [Heq|Hin]%elem_of_cons; [by injection Heq as ->|by apply elem_of_nil in Hin].
  - destruct (pressAlert_inv os i j a a' l Ha Hs) as (al & handler & Hi & Hh & -> & ->).
    cbn. split_and!; [| | |done].
    + left. destruct Hh as [->|[_ ->]]; done.
    + destruct Hh as [->|[-> ->]]; [by left|]. right; right.
      unfold pressAlert in Hs. rewrite Hi in Hs. cbn in Hs.
      destruct j; [|done]. by exists i.
    + intros args Hin. by apply elem_of_nil in Hin.
  - some_pair Hs. cbn. rewrite callsIn_alerts. split_and!; [by left|by left| |done].
    intros args Hin. by apply elem_of_nil in Hin.
  - destruct (settle_inv os i o a a' l Ha Hs) as (Hpl & Hse & _ & Hr).
    rewrite (plain_callsIn l Hpl). split_and!; [|by left| |done].
    + destruct Hr as [?|(k & -> & ? & ?)]; [by left|right; by exists i, k].
    + intros args Hin. by apply elem_of_nil in Hin.
Qed.

(** ** Runs *)

Lemma run_cons os ev evs a a1 l1 a2 l2 :
  step os ev a = Some (a1, l1) → run os evs a1 = Some (a2, l2) →
  run os (ev :: evs) a = Some (a2, l1 ++ l2).
Proof. intros Hs Hr. cbn. rewrite Hs. cbn. rewrite Hr. done. Qed.

Lemma run_cons_inv os ev evs a a2 l :
  run os (ev :: evs) a = Some (a2, l) →
  ∃ a1 l1 l2, step os ev a = Some (a1, l1) ∧ run os evs a1 = Some (a2, l2) ∧ l = l1 ++ l2.
Proof.
  cbn. destruct (step os ev a) as [[a1 l1]|]; [|done]. cbn.
  destruct (run os evs a1) as [[a2' l2]|] eqn:Hr; [|done]. cbn.
  intros [= <- <-]. by exists a1, l1, l2.
Qed.

Lemma logged_weaken a L L' : logged a L → logged a (L ++ L').
Proof. intros H t Ht c Hc. apply elem_of_app. left. by eapply H. Qed.

Lemma launch_logged os p a L :
  entry_ok os p ∨ (∀ t, run_status (start p (comp a)) ≠ Waiting t) →
  logged a L → logged (launch p a).1 (L ++ (launch p a).2).
Proof.
  intros Hp HL t Ht c Hc. unfold launch in *; cbn [fst snd pending] in *.
  apply elem_of_app in Ht as [Ht|Ht].
  - apply elem_of_app. left. by eapply HL.
  - destruct (run_status (start p (comp a))) as [| |t'] eqn:Hst;
      try (by apply elem_of_nil in Ht).
    apply list_elem_of_singleton in Ht as ->.
    destruct Hp as [Hp|Hp]; [|by destruct (Hp t')].
    destruct (start_entry_status os p (comp a) t' Hp Hst) as [_ Hall].
    apply elem_of_app. right. eapply Forall_forall in Hall; eauto.
Qed.

Lemma rerender_logged h' a L :
  logged a L → logged (rerender h' a).1 (L ++ (rerender h' a).2).
Proof.
  intros HL. unfold rerender. cbv zeta.
  apply (andThen_frame (fun a a' l => ∀ L, logged a L → logged a' (L ++ l))).
  - intros a0 L0. by rewrite app_nil_r.
  - intros a1 a2 a3 l1 l2 H1 H2 L0 H0. rewrite app_assoc. auto.
  - intros a0 L0 H0. case_bool_decide; [by rewrite app_nil_r|].
    apply (launch_logged ios); [left; apply fetchEffect_entry|done].
  - intros a0 L0 H0. case_bool_decide; [by rewrite app_nil_r|].
    apply (launch_logged ios); [left; apply purchaseEffect_entry|done].
  - done.
Qed.

Lemma mount_logged h : logged (mount h).1 (mount h).2.
Proof.
  unfold mount.
  apply (andThen_frame (fun a a' l => ∀ L, logged a L → logged a' (L ++ l))) with (L := []).
  - intros a0 L0. by rewrite app_nil_r.
  - intros a1 a2 a3 l1 l2 H1 H2 L0 H0. rewrite app_assoc. auto.
  - intros a0 L0 H0. apply (launch_logged ios); [left; apply fetchEffect_entry|done].
  - intros a0 L0 H0. apply (launch_logged ios); [left; apply purchaseEffect_entry|done].
  - intros t Ht. by apply elem_of_nil in Ht.
Qed.

Lemma step_logged os ev a a' l L :
  Inv os a → logged a L → step os ev a = Some (a', l) → logged a' (L ++ l).
Proof.
  intros Ha HL Hs. destruct ev as [h'|p|e|e|operation|args|i j| |i o]; cbn [step] in Hs.
  - some_pair Hs. by apply rerender_logged.
  - some_pair Hs. apply (launch_logged os); [left; apply onPurchaseSuccess_entry|done].
  - some_pair Hs. apply (launch_logged os); [left; apply onPurchaseError_entry|done].
  - some_pair Hs. apply (launch_logged os); [by right|done].
  - case_bool_decide; [|done]. some_pair Hs.
    apply (launch_logged os); [left; apply handleOperation_entry|done].
  - case_bool_decide; [|done]. some_pair Hs. apply (launch_logged os); [by right|done].
  - destruct (pressAlert_inv os i j a a' l Ha Hs) as (al & handler & _ & _ & -> & ->).
    by apply logged_weaken.
  - some_pair Hs. by apply logged_weaken.
  - unfold settle in Hs. destruct (pending a !! i) as [t|] eqn:Hi; [|done]. cbn in Hs.
    assert (task_ok os t) as Hok.
    { destruct Ha as (Ht & _). eapply Forall_forall; [exact Ht|].
      by eapply list_elem_of_lookup_2. }
    assert (logged (with_pending (delete i (pending a)) a) L) as HL'.
    { intros t' Ht'. apply HL. cbn in Ht'. by eapply list_elem_of_delete_inv. }
    destruct t as [calls k|sku k], o as [outs|out]; try done.
    + case_bool_decide; [|done]. some_pair Hs. destruct Hok as (_ & Hk & _).
      apply (launch_logged os); [right|done].
      by apply (start_straight_status (afterFetch calls (Promise_all outs))).
    + some_pair Hs. destruct Hok as (_ & Hk & _).
      apply (launch_logged os); [right|done].
      by apply (start_straight_status afterValidate).
Qed.

(** If a run ends with the ready flag set, it contains the settlement of the
    initial pair of fetches with both fulfilled, and both were issued
    before. *)
Lemma run_ready os evs a0 L a l :
  Inv os a0 → logged a0 L → run os evs a0 = Some (a, l) →
  isReady (comp a0) = false → isReady (comp a) = true →
  ∃ evs1 i evs2 a1 l1 k,
    evs = evs1 ++ Settle i (SettleAll [Fulfilled tt; Fulfilled tt]) :: evs2 ∧
    run os evs1 a0 = Some (a1, l1) ∧
    pending a1 !! i = Some (TaskAll initCalls k) ∧
    Forall (fun c => Call c ∈ L ++ l1) initCalls.
Proof.
  revert a0 L l. induction evs as [|ev evs IH]; intros a0 L l Ha HL Hr H0 H1.
  - cbn in Hr. injection Hr as <- <-. congruence.
  - apply run_cons_inv in Hr as (a1 & l1 & l2 & Hs & Hr & ->).
    destruct (step_cells os ev a0 a1 l1 Ha Hs) as ([Hsame|(i & k & -> & Hi & _)] & _).
    + destruct (IH a1 (L ++ l1) l2) as (evs1 & i & evs2 & a2 & l3 & k & -> & Hr1 & Hi & Hc);
        [by eapply step_Inv|by eapply step_logged|done|congruence|done|].
      exists (ev :: evs1), i, evs2, a2, (l1 ++ l3), k.
      split_and!; [done|by eapply run_cons|done|by rewrite app_assoc].
    + exists [], i, evs, a0, [], k. split_and!; [done|done|done|].
      rewrite app_nil_r. apply Forall_forall. intros c Hc.
      eapply HL; [by eapply list_elem_of_lookup_2|done].
Qed.

(** A purchase request in a run comes from a press on a Buy/Subscribe
    button, in a state that is connected and ready. *)
Lemma run_purchase os evs a0 a l args :
  Inv os a0 → run os evs a0 = Some (a, l) → RequestPurchase args ∈ callsIn l →
  ∃ evs1 evs2 a1 l1,
    evs = evs1 ++ PressPurchase args :: evs2 ∧
    run os evs1 a0 = Some (a1, l1) ∧
    connected (hook a1) = true ∧ isReady (comp a1) = true.
Proof.
  revert a0 l. induction evs as [|ev evs IH]; intros a0 l Ha Hr Hin.
  - cbn in Hr. injection Hr as <- <-. by apply elem_of_nil in Hin.
  - apply run_cons_inv in Hr as (a1 & l1 & l2 & Hs & Hr & ->).
    rewrite callsIn_app in Hin. apply elem_of_app in Hin as [Hin|Hin].
    + destruct (step_cells os ev a0 a1 l1 Ha Hs) as (_ & _ & Hp & _).
      destruct (Hp args Hin) as (-> & Hc & Hrdy).
      by exists [], evs, a0, [].
    + destruct (IH a1 l2) as (evs1 & evs2 & a2 & l3 & -> & Hr1 & Hc & Hrdy);
        [by eapply step_Inv|done|done|].
      exists (ev :: evs1), evs2, a2, (l1 ++ l3). split_and!; [done| |done|done].
      by eapply run_cons.
Qed.

(** The sync error stays set along a run in which no alert button is
    pressed. *)
Lemma run_syncError_active os evs a a' l :
  Inv os a → run os evs a = Some (a', l) →
  is_Some (syncError (comp a)) →
  Forall (fun ev => ∀ i j, ev ≠ PressAlert i j) evs →
  is_Some (syncError (comp a')).
Proof.
  revert a l. induction evs as [|ev evs IH]; intros a l Ha Hr Hact Hno.
  - cbn in Hr. by injection Hr as <- <-.
  - apply run_cons_inv in Hr as (a1 & l1 & l2 & Hs & Hr & ->).
    apply Forall_cons in Hno as [Hev Hno].
    eapply IH; [by eapply step_Inv|exact Hr| |done].
    destruct (step_cells os ev a a1 l1 Ha Hs) as (_ & [Hsame|[(e & _ & He)|(i & -> & _)]] & _).
    + by rewrite Hsame.
    + by rewrite He.
    + by destruct (Hev i 0).
Qed.

Lemma acknowledge_cleared c :
  syncError c = None → foldl (fun c s => apply_setter s c) c acknowledge = c.
Proof. destruct c as [se r v]; cbn. by intros ->. Qed.

(** Once cleared, further presses on alert buttons change no cell. *)
Lemma run_acknowledge_again os evs a a' l :
  Inv os a → run os evs a = Some (a', l) →
  syncError (comp a) = None →
  Forall (fun ev => ∃ i j, ev = PressAlert i j) evs →
  comp a' = comp a.
Proof.
  revert a l. induction evs as [|ev evs IH]; intros a l Ha Hr Hnone Hall.
  - cbn in Hr. by injection Hr as <- <-.
  - apply run_cons_inv in Hr as (a1 & l1 & l2 & Hs & Hr & ->).
    apply Forall_cons in Hall as [(i & j & ->) Hall].
    cbn [step] in Hs.
    destruct (pressAlert_inv os i j a a1 l1 Ha Hs) as (al & handler & _ & Hh & _ & Ha1).
    assert (comp a1 = comp a) as Hsame.
    { rewrite Ha1; cbn. destruct Hh as [->|[_ ->]]; [done|by apply acknowledge_cleared]. }
    rewrite <- Hsame. eapply IH; [|exact Hr| |done].
    + eapply pressAlert_Inv; [exact Ha|exact Hs].
    + by rewrite Hsame.
Qed.

Lemma elem_of_flat_map {A B} (f : A → list B) (l : list A) (y : B) :
  y ∈ flat_map f l ↔ ∃ x, x ∈ l ∧ y ∈ f x.
Proof.
  rewrite list_elem_of_In, in_flat_map. split.
  - intros (x & Hx & Hy). exists x. by rewrite !list_elem_of_In.
  - intros (x & Hx & Hy). exists x. by rewrite <- !list_elem_of_In.
Qed.

(** What a render emits, effect by effect. *)
Lemma rerender_effects h' a :
  (rerender h' a).2 =
    (if fetchDepsChanged (hook a) h' && connected h' then map Call initCalls else []) ++
    (if purchaseDepsChanged (hook a) h'
     then map runAfterInteractions (purchaseAlerts h') else []).
Proof.
  unfold rerender, andThen, fetchDepsChanged, purchaseDepsChanged, fetchEffect,
    purchaseEffect, purchaseAlerts. cbv zeta.
  repeat case_bool_decide; cbn [negb andb];
    destruct (connected h'), (currentPurchase h'), (currentPurchaseError h'); reflexivity.
Qed.

Lemma rerender_shown h' a : flat_map shown (rerender h' a).2 = [].
Proof.
  rewrite rerender_effects, flat_map_app.
  destruct (_ && _), (purchaseDepsChanged (hook a) h'); cbn; try done;
    unfold purchaseAlerts;
    by destruct (currentPurchase h'), (currentPurchaseError h').
Qed.

Lemma rerender_comp h' a : comp (rerender h' a).1 = comp a.
Proof.
  unfold rerender, andThen, fetchEffect, purchaseEffect. cbv zeta.
  repeat case_bool_decide;
    destruct (connected h'), (currentPurchase h'), (currentPurchaseError h'); reflexivity.
Qed.


Lemma purchaseAlerts_plain h al : al ∈ purchaseAlerts h → alert_buttons al = [].
Proof.
  unfold purchaseAlerts.
  destruct (currentPurchase h), (currentPurchaseError h); cbn;
    intros Hin; repeat (apply elem_of_cons in Hin as [->|Hin]; [done|]);
    by apply elem_of_nil in Hin.
Qed.

Lemma no_alert_not_shown l :
  Forall (fun e => isAlert e = false) l → flat_map shown l = [].
Proof.
  induction 1 as [|e l He _ IH]; [done|]. cbn. rewrite IH.
  by destruct e.
Qed.

(* ===================================================================== *)
(** * The claims settled on the driver                                    *)
(* ===================================================================== *)




(** C2.  On android the receipt-validation operation is indeterminate by
    construction.  For every product id the validation branch clears the
    shown result, raises one alert and returns.  The alert is titled
    "Android Receipt Validation" and its text says why no verdict is given,
    that further server parameters are required, and names them:
    packageName, productToken and accessToken.  [handleOperation] does the
    same whenever it reaches that branch.  Whatever the operation and the
    state, no [validateReceipt] call is issued and no validation result is
    produced, and in every state the screen can reach the validation result
    is absent (nothing to show as valid or invalid). *)
Theorem android_validation_indeterminate
    (productId : string) (h : Hook) (env : Oracle) (c : Comp) :
  exec env (validateBranch android productId) c =
    (Returned tt, apply_setter (setValidationResult None) c,
     [ Alert_alert
         (plainAlert "Android Receipt Validation"
            (String.concat nl
               [ "Android receipt validation requires additional server parameters.";
                 "";
                 "For a real app, you would need:";
                 "- packageName";
                 "- productToken";
                 "- accessToken" ])) ]) ∧
  Forall (fun parameter => occursIn parameter androidValidationMessage = true)
    [ "requires additional server parameters"; "packageName"; "productToken";
      "accessToken" ] ∧
  (connected h = true → productToValidate h = Some productId →
   truthy (Some productId) = true →
   exec env (handleOperation android h validateReceiptOp) c =
     exec env (validateBranch android productId) c) ∧
  (∀ operation sku,
     ValidateReceipt sku ∉ callsIn (exec env (handleOperation android h operation) c).2) ∧
  (∀ operation,
     validationResult (exec env (handleOperation android h operation) c).1.2 = None ∨
     (exec env (handleOperation android h operation) c).1.2 = c) ∧
  (∀ a, reachable android a →
     validationResult (comp a) = None ∧
     validationPanel (render (hook a) (comp a)) = None).
Proof.
  split_and!.
  - reflexivity.
  - repeat constructor.
  - intros Hc Hp Ht. unfold handleOperation. rewrite Hc, Hp, Ht. reflexivity.
  - intros operation sku. unfold handleOperation.
    destruct (connected h); cbn [negb]; [|cbn; not_listed].
    destruct operation.
    + cbn. destruct (settle_fetch env _) as [[]|e]; cbn; [not_listed|].
      destruct (String_ e); cbn; not_listed.
    + cbn. destruct (settle_fetch env _) as [[]|e]; cbn; [not_listed|].
      destruct (String_ e); cbn; not_listed.
    + destruct (productToValidate h) as [p|]; [|cbn; not_listed].
      destruct (truthy (Some p)); cbn; not_listed.
  - intros operation. unfold handleOperation.
    destruct (connected h); cbn [negb]; [|by right].
    destruct operation.
    + cbn. destruct (settle_fetch env _) as [[]|e]; cbn; [by right|].
      destruct (String_ e); by right.
    + cbn. destruct (settle_fetch env _) as [[]|e]; cbn; [by right|].
      destruct (String_ e); by right.
    + destruct (productToValidate h) as [p|]; [|by right].
      destruct (truthy (Some p)); [by left|by right].
  - intros a Hreach. destruct (reachable_Inv android a Hreach) as (_ & _ & Hv).
    split; by apply Hv.
Qed.

Lemma android_validation_indeterminate_witness :
  exec Sample.failing (handleOperation android Sample.online validateReceiptOp) initialComp =
    exec Sample.failing (validateBranch android "cpk.points.1000") initialComp.
Proof.
  apply (proj1 (proj2 (proj2 (android_validation_indeterminate
                                "cpk.points.1000" Sample.online Sample.failing
                                initialComp)))).
  - reflexivity.
  - reflexivity.
  - reflexivity.
Defined.




(** C6.  A sync error, once reported through [onSyncError], is held in the
    [syncError] cell (and the banner is shown) until the OK button of a
    "Sync Error" alert is pressed: no other event clears it, and along any
    run without a press on an alert button it stays set.  That press clears
    it, and pressing again, on this or any other open alert and however
    often, leaves every cell as it is. *)
Theorem syncError_active_until_acknowledged (os : PlatformOS) (a : App) :
  reachable os a →
  (∀ e, ∃ a' l, step os (SyncError e) a = Some (a', l) ∧
        syncError (comp a') = Some e ∧
        errorBanner (render (hook a') (comp a')) = true ∧
        syncErrorAlert ∈ scheduled a') ∧
  (∀ ev a' l, step os ev a = Some (a', l) →
     is_Some (syncError (comp a)) → syncError (comp a') = None →
     ∃ i, ev = PressAlert i 0 ∧ alerts a !! i = Some syncErrorAlert) ∧
  (∀ evs a' l, run os evs a = Some (a', l) →
     is_Some (syncError (comp a)) →
     Forall (fun ev => ∀ i j, ev ≠ PressAlert i j) evs →
     is_Some (syncError (comp a')) ∧
     errorBanner (render (hook a') (comp a')) = true) ∧
  (∀ i, alerts a !! i = Some syncErrorAlert →
     ∃ a', step os (PressAlert i 0) a = Some (a', []) ∧
           syncError (comp a') = None ∧
           errorBanner (render (hook a') (comp a')) = false) ∧
  (∀ evs a' l, run os evs a = Some (a', l) →
     syncError (comp a) = None →
     Forall (fun ev => ∃ i j, ev = PressAlert i j) evs →
     comp a' = comp a) ∧
  (∀ c n, Nat.iter (S n) (fun c => foldl (fun c s => apply_setter s c) c acknowledge) c =
          foldl (fun c s => apply_setter s c) c acknowledge).
Proof.
  intros Hreach. pose proof (reachable_Inv os a Hreach) as Ha. split_and!.
  - intros e. eexists _, _. split; [reflexivity|]. cbn. split_and!; [done|done|].
    apply elem_of_app. right. by apply list_elem_of_singleton.
  - intros ev a' l Hs [e He] Hnone.
    destruct (step_cells os ev a a' l Ha Hs) as (_ & [Hsame|[(e' & _ & He')|(i & -> & Hi & _)]] & _).
    + congruence.
    + congruence.
    + by exists i.
  - intros evs a' l Hr Hact Hno.
    pose proof (run_syncError_active os evs a a' l Ha Hr Hact Hno) as Hact'.
    split; [done|]. unfold render; cbn. by apply bool_decide_eq_true.
  - intros i Hi. unfold step, pressAlert. rewrite Hi. cbn.
    eexists. split; [reflexivity|]. cbn. done.
  - intros evs a' l Hr Hnone Hall. by eapply run_acknowledge_again.
  - intros c n. induction n as [|n IH]; [done|].
    change (Nat.iter (S (S n)) ?f c) with (f (Nat.iter (S n) f c)). rewrite IH.
    by destruct c.
Qed.

Lemma syncError_active_until_acknowledged_witness :
  (∀ e, ∃ a' l, step android (SyncError e) Sample.erred = Some (a', l) ∧
        syncError (comp a') = Some e ∧
        errorBanner (render (hook a') (comp a')) = true ∧
        syncErrorAlert ∈ scheduled a') ∧
  (∀ ev a' l, step android ev Sample.erred = Some (a', l) →
     is_Some (syncError (comp Sample.erred)) → syncError (comp a') = None →
     ∃ i, ev = PressAlert i 0 ∧ alerts Sample.erred !! i = Some syncErrorAlert) ∧
  (∀ evs a' l, run android evs Sample.erred = Some (a', l) →
     is_Some (syncError (comp Sample.erred)) →
     Forall (fun ev => ∀ i j, ev ≠ PressAlert i j) evs →
     is_Some (syncError (comp a')) ∧
     errorBanner (render (hook a') (comp a')) = true) ∧
  (∀ i, alerts Sample.erred !! i = Some syncErrorAlert →
     ∃ a', step android (PressAlert i 0) Sample.erred = Some (a', []) ∧
           syncError (comp a') = None ∧
           errorBanner (render (hook a') (comp a')) = false) ∧
  (∀ evs a' l, run android evs Sample.erred = Some (a', l) →
     syncError (comp Sample.erred) = None →
     Forall (fun ev => ∃ i j, ev = PressAlert i j) evs →
     comp a' = comp Sample.erred) ∧
  (∀ c n, Nat.iter (S n) (fun c => foldl (fun c s => apply_setter s c) c acknowledge) c =
          foldl (fun c s => apply_setter s c) c acknowledge).
Proof.
  apply (syncError_active_until_acknowledged android Sample.erred).
  exists Sample.online, [SyncError Sample.boom]. eexists. reflexivity.
Defined.

(** C9.  In every run of the screen from its first render: if the ready
    flag is set at the end, the run contains the settlement of the await in
    [initializeIAP], that await was on exactly [getProducts(productSkus)]
    and [getSubscriptions(subscriptionSkus)], both calls had been issued,
    and both promises were fulfilled; and every [requestPurchase] call of
    the run comes from a press on a Buy/Subscribe button made in a state
    where [connected] and the ready flag are both true. *)
Theorem ready_only_after_initial_fetches
    (os : PlatformOS) (h : Hook) (evs : list Event) (a : App) (l : list Effect) :
  run os evs (mount h).1 = Some (a, l) →
  (isReady (comp a) = true →
   ∃ evs1 i evs2 a1 l1 k,
     evs = evs1 ++ Settle i (SettleAll [Fulfilled tt; Fulfilled tt]) :: evs2 ∧
     run os evs1 (mount h).1 = Some (a1, l1) ∧
     pending a1 !! i = Some (TaskAll initCalls k) ∧
     Forall (fun c => Call c ∈ (mount h).2 ++ l1) initCalls) ∧
  (∀ args, RequestPurchase args ∈ callsIn l →
   ∃ evs1 evs2 a1 l1,
     evs = evs1 ++ PressPurchase args :: evs2 ∧
     run os evs1 (mount h).1 = Some (a1, l1) ∧
     connected (hook a1) = true ∧ isReady (comp a1) = true).
Proof.
  intros Hr. split.
  - intros Hready.
    apply (run_ready os evs (mount h).1 (mount h).2 a l);
      [apply mount_Inv|apply mount_logged|done|by rewrite mount_comp|done].
  - intros args Hin.
    apply (run_purchase os evs (mount h).1 a l args); [apply mount_Inv|done|done].
Qed.

Lemma ready_only_after_initial_fetches_witness :
  (isReady (comp Sample.ready) = true →
   ∃ evs1 i evs2 a1 l1 k,
     [Settle 0 Sample.bothFulfilled] =
       evs1 ++ Settle i (SettleAll [Fulfilled tt; Fulfilled tt]) :: evs2 ∧
     run android evs1 (mount Sample.online).1 = Some (a1, l1) ∧
     pending a1 !! i = Some (TaskAll initCalls k) ∧
     Forall (fun c => Call c ∈ (mount Sample.online).2 ++ l1) initCalls) ∧
  (∀ args, RequestPurchase args ∈ callsIn Sample.readyLog →
   ∃ evs1 evs2 a1 l1,
     [Settle 0 Sample.bothFulfilled] = evs1 ++ PressPurchase args :: evs2 ∧
     run android evs1 (mount Sample.online).1 = Some (a1, l1) ∧
     connected (hook a1) = true ∧ isReady (comp a1) = true).
Proof.
  apply (ready_only_after_initial_fetches android Sample.online
           [Settle 0 Sample.bothFulfilled] Sample.ready Sample.readyLog).
  reflexivity.
Defined.

(** C10.  [handleOperation] is meant to let no exception out, and its
    catch block misses one case.  When the awaited call rejects with a value
    that [String] cannot convert, the catch block logs the value and then
    throws itself, at [String(error)]: the function ends with an exception,
    no alert has been raised, and in the event loop the exception is
    recorded as uncaught. *)
Theorem handleOperation_catch_block_throws :
  String_ Sample.prototypeless = None ∧
  ∃ thrown,
    exec Sample.unprintable (handleOperation android Sample.online getProductsOp)
        initialComp =
      (Threw thrown, initialComp,
       [ Call (GetProducts productSkus);
         console_error "Error in getProducts:" Sample.prototypeless ]) ∧
    from_option (fun r => (uncaught r.1, flat_map shown r.2)) ([], [])
      (run android
         [ PressOperation getProductsOp;
           Settle 1 (SettleAll [Rejected Sample.prototypeless]) ]
         (mount Sample.online).1) =
      ([thrown], []).
Proof. split; [reflexivity|]. eexists. split; reflexivity. Qed.

(** ** The driver on the sample data *)

Example rejected_fetch_is_alerted :
  exec Sample.failing (handleOperation ios Sample.online getProductsOp) initialComp =
    (Returned tt, initialComp,
     [ Call (GetProducts productSkus);
       console_error "Error in getProducts:" Sample.boom;
       errorAlert getProductsOp "Error: boom" ]).
Proof. reflexivity. Qed.

Example rejected_validation_is_alerted :
  exec Sample.failing (handleOperation ios Sample.online validateReceiptOp) initialComp =
    (Returned tt, initialComp,
     [ Call (ValidateReceipt "cpk.points.1000");
       console_error "Error in validateReceipt:" Sample.boom;
       errorAlert validateReceiptOp "Error: boom" ]).
Proof. reflexivity. Qed.

Example sync_error_shows_banner :
  syncError (comp Sample.erred) = Some Sample.boom ∧
  errorBanner (render (hook Sample.erred) (comp Sample.erred)) = true ∧
  scheduled Sample.erred = [syncErrorAlert].
Proof. split_and!; reflexivity. Qed.

Example acknowledged_twice :
  from_option (fun r => (syncError (comp r.1), alerts r.1)) (None, [])
    (run android [SyncError Sample.boom; Idle; PressAlert 0 0] Sample.erred) =
    (None, [syncErrorAlert]) ∧
  from_option (fun r => (syncError (comp r.1), alerts r.1)) (Some Sample.boom, [])
    (run android [SyncError Sample.boom; Idle; PressAlert 0 0; PressAlert 0 0] Sample.erred) =
    (None, []).
Proof. split; reflexivity. Qed.

Example mounted_connected_is_loading :
  content (render (hook (mount Sample.online).1) (comp (mount Sample.online).1)) = LoadingText ∧
  callsIn (mount Sample.online).2 = initCalls.
Proof. split; reflexivity. Qed.

Example ready_after_both_fetches :
  isReady (comp Sample.ready) = true ∧
  purchaseButtons (render (hook Sample.ready) (comp Sample.ready)) =
    [ {| request := ReqSkus ["cpk.points.1000"] None; type := None |};
      {| request := ReqSkus ["cpk.membership.monthly.bronze"] (Some []);
         type := Some subs |} ].
Proof. split; reflexivity. Qed.

Example not_ready_after_a_rejected_fetch :
  (from_option (fun r => isReady (comp r.1)) true
     (run android [Settle 0 (SettleAll [Fulfilled tt; Rejected Sample.boom])]
        (mount Sample.online).1)) = false.
Proof. reflexivity. Qed.

Example subscribe_press_when_ready :
  from_option (fun r => callsIn r.2) []
    (step android (PressPurchase (offerButton Sample.bronze Sample.untokened)) Sample.ready) =
    [ RequestPurchase
        {| request := ReqSkus ["cpk.membership.monthly.bronze"] (Some []);
           type := Some subs |} ].
Proof. reflexivity. Qed.

Example subscribe_press_while_loading :
  step android (PressPurchase (offerButton Sample.bronze Sample.untokened))
    (mount Sample.online).1 = None.
Proof. reflexivity. Qed.

(* ===================================================================== *)
(** * Properties of the orchestration core                                *)
(* ===================================================================== *)

Lemma fetchProducts_channel ids answer ctx :
  Core.inboxes (Core.fetchProducts ids answer ctx).2 = Core.inboxes ctx ∧
  Core.emitted (Core.fetchProducts ids answer ctx).2 = Core.emitted ctx.
Proof.
  unfold Core.fetchProducts.
  destruct (Core.connection ctx), ids, answer; done.
Qed.

Lemma fetchSubscriptions_channel ids answer ctx :
  Core.inboxes (Core.fetchSubscriptions ids answer ctx).2 = Core.inboxes ctx ∧
  Core.emitted (Core.fetchSubscriptions ids answer ctx).2 = Core.emitted ctx.
Proof.
  unfold Core.fetchSubscriptions.
  destruct (Core.connection ctx), ids, answer; done.
Qed.

Lemma requestPurchase_channel intent ctx :
  Core.inboxes (Core.requestPurchase intent ctx).2 = Core.inboxes ctx ∧
  Core.emitted (Core.requestPurchase intent ctx).2 = Core.emitted ctx.
Proof.
  unfold Core.requestPurchase.
  destruct (Core.connection ctx); try done.
  by destruct (Core.missingOfferToken ctx intent).
Qed.

Lemma subscribe_channel l' ctx l log :
  Core.inboxes ctx !! l = Some log →
  Core.inboxes (Core.subscribe l' ctx) !! l = Some log ∧
  Core.emitted (Core.subscribe l' ctx) = Core.emitted ctx.
Proof.
  intros Hl. unfold Core.subscribe.
  destruct (Core.inboxes ctx !! l') eqn:Hl'; [done|]. cbn. split; [|done].
  rewrite lookup_insert_ne; [done|]. intros ->. congruence.
Qed.

Lemma emit_channel e ctx l log :
  Core.inboxes ctx !! l = Some log →
  Core.inboxes (Core.emit e ctx) !! l = Some (log ++ [(Core.emitted ctx, e)]) ∧
  Core.emitted (Core.emit e ctx) = S (Core.emitted ctx).
Proof. intros Hl. cbn. by rewrite lookup_fmap, Hl. Qed.

(** What a registered listener holds after a session: what it held before,
    followed by the session's emissions, in order, numbered on. *)
Lemma session_inbox ops ctx l log :
  Core.inboxes ctx !! l = Some log →
  Core.inboxes (Core.session ops ctx) !! l =
    Some (log ++ Core.stamp (Core.emitted ctx) (Core.emissions ops)).
Proof.
  revert ctx log. induction ops as [|op ops IH]; intros ctx log Hl.
  - cbn. by rewrite app_nil_r.
  - unfold Core.session in *. cbn [foldl].
    destruct op as [ids ans|ids ans|intent|l'|e]; cbn [Core.apply_op Core.emissions flat_map].
    + destruct (fetchProducts_channel ids ans ctx) as [Hi He].
      rewrite (IH _ log); [by rewrite He|by rewrite Hi].
    + destruct (fetchSubscriptions_channel ids ans ctx) as [Hi He].
      rewrite (IH _ log); [by rewrite He|by rewrite Hi].
    + destruct (requestPurchase_channel intent ctx) as [Hi He].
      rewrite (IH _ log); [by rewrite He|by rewrite Hi].
    + destruct (subscribe_channel l' ctx l log Hl) as [Hi He].
      rewrite (IH _ log); [by rewrite He|done].
    + destruct (emit_channel e ctx l log Hl) as [Hi He].
      rewrite (IH _ _ Hi), He. cbn. by rewrite <- app_assoc.
Qed.

Lemma stamp_fst n evs : (Core.stamp n evs).*1 = seq n (length evs).
Proof. revert n. induction evs as [|e evs IH]; intros n; cbn; [done|]. by rewrite IH. Qed.

Lemma stamp_snd n evs : (Core.stamp n evs).*2 = evs.
Proof. revert n. induction evs as [|e evs IH]; intros n; cbn; [done|]. by rewrite IH. Qed.

Lemma stamp_NoDup n evs : NoDup (Core.stamp n evs).
Proof. apply (NoDup_fmap_1 fst). rewrite stamp_fst. apply NoDup_seq. Qed.

(** The core refuses while not connected: each of its three calls reports
    [NotConnected] as its own result and leaves the context, and with it
    the list of calls made to the store, as it was. *)
Lemma core_refuses_while_not_connected ctx ids pa sa intent :
  Core.connection ctx ≠ Core.Connected →
  Core.fetchProducts ids pa ctx = (Core.Err Core.NotConnected, ctx) ∧
  Core.fetchSubscriptions ids sa ctx = (Core.Err Core.NotConnected, ctx) ∧
  Core.requestPurchase intent ctx = (Core.Err Core.NotConnected, ctx).
Proof.
  intros Hc. unfold Core.fetchProducts, Core.fetchSubscriptions, Core.requestPurchase.
  by destruct (Core.connection ctx).
Qed.

(** The dispatcher's guard: on android, a subscription request is refused
    as soon as one of its SKUs has offers and none of that SKU's tokens
    comes with the request, whatever tokens it carries for other SKUs; the
    store is not called. *)
Lemma requestPurchase_rejects_missing_token intent ctx sku :
  Core.connection ctx = Core.Connected →
  Core.platform ctx = Core.Android →
  Core.kind intent = subs →
  sku ∈ Core.skus intent →
  Core.offersOf ctx sku ≠ [] →
  (∀ tok, tok ∈ Core.offerTokens intent →
          tok ∉ map Core.offerToken (Core.offersOf ctx sku)) →
  Core.requestPurchase intent ctx = (Core.Err Core.PurchaseRequestRejected, ctx).
Proof.
  intros Hc Hp Hk Hsku Hoffers Hnone.
  unfold Core.requestPurchase, Core.missingOfferToken. rewrite Hc, Hp, Hk.
  rewrite !bool_decide_eq_true_2 by done. cbn [andb].
  replace (existsb (Core.lacksOfferToken ctx intent) (Core.skus intent)) with true; [done|].
  symmetry. apply existsb_exists. exists sku. split; [by apply list_elem_of_In|].
  unfold Core.lacksOfferToken. rewrite bool_decide_eq_true_2 by done. cbn [andb].
  apply forallb_forall. intros tok Htok. apply bool_decide_eq_true_2.
  apply Hnone. by apply list_elem_of_In.
Qed.

(* ===================================================================== *)
(** * The claims settled on the orchestration core                        *)
(* ===================================================================== *)

(** C5.  A fetch that succeeds leaves in the cache of its category exactly
    what the store answered, whatever the cache held before: the answer is
    neither appended to the old list nor merged with it, so an entry of the
    old cache that the store did not return again is gone.  The list the
    call returns is that same answer.  The cache of the other category is
    untouched, and a fetch that fails leaves both caches as they were.
    Likewise for [fetchSubscriptions] with the two categories exchanged. *)
Theorem fetch_replaces_cache
    (ids : list string) (ctx : Core.Context)
    (answer : list Core.ProductDescriptor)
    (answer' : list Core.SubscriptionDescriptor) :
  Core.connection ctx = Core.Connected →
  ids ≠ [] →
  ((Core.fetchProducts ids (Some answer) ctx).1 = Core.Ok answer ∧
   Core.productCache (Core.fetchProducts ids (Some answer) ctx).2 = answer ∧
   (∀ d, d ∈ Core.productCache ctx → d ∉ answer →
         d ∉ Core.productCache (Core.fetchProducts ids (Some answer) ctx).2) ∧
   Core.subscriptionCache (Core.fetchProducts ids (Some answer) ctx).2 =
     Core.subscriptionCache ctx ∧
   Core.productCache (Core.fetchProducts ids None ctx).2 = Core.productCache ctx ∧
   (∀ given ds ctx', Core.fetchProducts ids given ctx = (Core.Ok ds, ctx') →
                     given = Some ds ∧ Core.productCache ctx' = ds)) ∧
  ((Core.fetchSubscriptions ids (Some answer') ctx).1 = Core.Ok answer' ∧
   Core.subscriptionCache (Core.fetchSubscriptions ids (Some answer') ctx).2 = answer' ∧
   (∀ d, d ∈ Core.subscriptionCache ctx → d ∉ answer' →
         d ∉ Core.subscriptionCache (Core.fetchSubscriptions ids (Some answer') ctx).2) ∧
   Core.productCache (Core.fetchSubscriptions ids (Some answer') ctx).2 =
     Core.productCache ctx ∧
   Core.subscriptionCache (Core.fetchSubscriptions ids None ctx).2 =
     Core.subscriptionCache ctx ∧
   (∀ given ds ctx', Core.fetchSubscriptions ids given ctx = (Core.Ok ds, ctx') →
                     given = Some ds ∧ Core.subscriptionCache ctx' = ds)).
Proof.
  intros Hc Hids. unfold Core.fetchProducts, Core.fetchSubscriptions. rewrite Hc.
  destruct ids as [|i ids']; [done|]. cbn.
  split; (split_and!; [done|done|auto|done|done|]);
    intros [given|] ds ctx' [= <- <-]; by cbn.
Qed.

Lemma fetch_replaces_cache_witness :
  ((Core.fetchProducts ["p1"; "p2"] (Some [Sample.p1]) Sample.session0).1 =
     Core.Ok [Sample.p1] ∧
   Core.productCache (Core.fetchProducts ["p1"; "p2"] (Some [Sample.p1]) Sample.session0).2 =
     [Sample.p1] ∧
   (∀ d, d ∈ Core.productCache Sample.session0 → d ∉ [Sample.p1] →
         d ∉ Core.productCache
               (Core.fetchProducts ["p1"; "p2"] (Some [Sample.p1]) Sample.session0).2) ∧
   Core.subscriptionCache
     (Core.fetchProducts ["p1"; "p2"] (Some [Sample.p1]) Sample.session0).2 =
     Core.subscriptionCache Sample.session0 ∧
   Core.productCache (Core.fetchProducts ["p1"; "p2"] None Sample.session0).2 =
     Core.productCache Sample.session0 ∧
   (∀ given ds ctx',
      Core.fetchProducts ["p1"; "p2"] given Sample.session0 = (Core.Ok ds, ctx') →
      given = Some ds ∧ Core.productCache ctx' = ds)) ∧
  ((Core.fetchSubscriptions ["p1"; "p2"] (Some []) Sample.session0).1 = Core.Ok [] ∧
   Core.subscriptionCache
     (Core.fetchSubscriptions ["p1"; "p2"] (Some []) Sample.session0).2 = [] ∧
   (∀ d, d ∈ Core.subscriptionCache Sample.session0 → d ∉ [] →
         d ∉ Core.subscriptionCache
               (Core.fetchSubscriptions ["p1"; "p2"] (Some []) Sample.session0).2) ∧
   Core.productCache (Core.fetchSubscriptions ["p1"; "p2"] (Some []) Sample.session0).2 =
     Core.productCache Sample.session0 ∧
   Core.subscriptionCache (Core.fetchSubscriptions ["p1"; "p2"] None Sample.session0).2 =
     Core.subscriptionCache Sample.session0 ∧
   (∀ given ds ctx',
      Core.fetchSubscriptions ["p1"; "p2"] given Sample.session0 = (Core.Ok ds, ctx') →
      given = Some ds ∧ Core.subscriptionCache ctx' = ds)).
Proof.
  apply (fetch_replaces_cache ["p1"; "p2"] Sample.session0 [Sample.p1] []).
  - reflexivity.
  - discriminate.
Defined.

(** C7.  Fetching the empty SKU list is never an error of its own.  On a
    connected context it succeeds with the empty descriptor list, for
    products and for subscriptions alike and whatever the store would have
    answered (even a failure), and the cache of the category becomes empty.
    On any context, the only failure such a fetch can report is the
    connection precondition every fetch has. *)
Theorem fetch_empty_is_empty
    (ctx : Core.Context)
    (pa : option (list Core.ProductDescriptor))
    (sa : option (list Core.SubscriptionDescriptor)) :
  (Core.connection ctx = Core.Connected →
   (Core.fetchProducts [] pa ctx).1 = Core.Ok [] ∧
   (Core.fetchSubscriptions [] sa ctx).1 = Core.Ok [] ∧
   Core.productCache (Core.fetchProducts [] pa ctx).2 = [] ∧
   Core.subscriptionCache (Core.fetchSubscriptions [] sa ctx).2 = []) ∧
  (∀ e, (Core.fetchProducts [] pa ctx).1 = Core.Err e →
        e = Core.NotConnected ∧ Core.connection ctx ≠ Core.Connected) ∧
  (∀ e, (Core.fetchSubscriptions [] sa ctx).1 = Core.Err e →
        e = Core.NotConnected ∧ Core.connection ctx ≠ Core.Connected).
Proof.
  unfold Core.fetchProducts, Core.fetchSubscriptions. split_and!.
  - intros Hc. rewrite Hc. done.
  - intros e. destruct (Core.connection ctx); cbn; intros [= <-]; done.
  - intros e. destruct (Core.connection ctx); cbn; intros [= <-]; done.
Qed.

Lemma fetch_empty_is_empty_witness :
  (Core.fetchProducts [] None Sample.session0).1 = Core.Ok [] ∧
  (Core.fetchSubscriptions [] None Sample.session0).1 = Core.Ok [] ∧
  Core.productCache (Core.fetchProducts [] None Sample.session0).2 = [] ∧
  Core.subscriptionCache (Core.fetchSubscriptions [] None Sample.session0).2 = [].
Proof.
  apply (proj1 (fetch_empty_is_empty Sample.session0 None None)). reflexivity.
Defined.

(** C8.  Whatever happens in a session (fetches, purchase requests, new
    or repeated registrations, store emissions), a listener that is
    registered receives, after what it already held, exactly the sequence
    of events the store emitted in the session: same events, same order,
    none merged or dropped, each under its own emission number, so none
    twice. *)
Theorem channel_delivers_in_emission_order
    (ops : list Core.Op) (ctx : Core.Context) (l : nat)
    (log : list (nat * Core.ChannelEvent)) :
  Core.inboxes ctx !! l = Some log →
  ∃ delivered,
    Core.inboxes (Core.session ops ctx) !! l = Some (log ++ delivered) ∧
    delivered.*2 = Core.emissions ops ∧
    delivered.*1 = seq (Core.emitted ctx) (length (Core.emissions ops)) ∧
    NoDup delivered.
Proof.
  intros Hl. exists (Core.stamp (Core.emitted ctx) (Core.emissions ops)).
  split_and!.
  - by apply session_inbox.
  - apply stamp_snd.
  - apply stamp_fst.
  - apply stamp_NoDup.
Qed.

Lemma channel_delivers_in_emission_order_witness :
  ∃ delivered,
    Core.inboxes (Core.session
                    [Core.OpStoreEmits Sample.bronzeResult; Core.OpSubscribe 0;
                     Core.OpStoreEmits (Core.SyncErrorEvent "reauth")]
                    (Core.subscribe 0 Sample.session0)) !! 0 = Some ([] ++ delivered) ∧
    delivered.*2 =
      Core.emissions [Core.OpStoreEmits Sample.bronzeResult; Core.OpSubscribe 0;
                      Core.OpStoreEmits (Core.SyncErrorEvent "reauth")] ∧
    delivered.*1 =
      seq (Core.emitted (Core.subscribe 0 Sample.session0))
        (length (Core.emissions
                   [Core.OpStoreEmits Sample.bronzeResult; Core.OpSubscribe 0;
                    Core.OpStoreEmits (Core.SyncErrorEvent "reauth")])) ∧
    NoDup delivered.
Proof.
  apply (channel_delivers_in_emission_order
           [Core.OpStoreEmits Sample.bronzeResult; Core.OpSubscribe 0;
            Core.OpStoreEmits (Core.SyncErrorEvent "reauth")]
           (Core.subscribe 0 Sample.session0) 0 []).
  reflexivity.
Defined.

(** ** The core on the sample data *)

(** Section 8's scenario: ids [p1, p2] are fetched, the store returns p1
    only; the cache then holds exactly that descriptor and no error is
    raised. *)
Example partial_fetch_scenario :
  Core.fetchProducts ["p1"; "p2"] (Some [Sample.p1]) Sample.session0 =
    (Core.Ok [Sample.p1],
     Core.with_products [Sample.p1] [Core.FetchProducts ["p1"; "p2"]] Sample.session0).
Proof. reflexivity. Qed.

(** The request the Subscribe button builds for an offer without a token,
    and a request for two subscriptions that brings the token of one only:
    the dispatcher refuses both; with both tokens it hands the request on. *)
Example dispatcher_wants_every_token :
  Core.requestPurchase (intentOf (offerButton Sample.bronze Sample.untokened))
      Sample.session0 =
    (Core.Err Core.PurchaseRequestRejected, Sample.session0) ∧
  Core.requestPurchase
      {| Core.skus := ["cpk.membership.monthly.bronze"; "cpk.membership.monthly.silver"];
         Core.kind := subs; Core.offerTokens := ["tok-base"] |}
      Sample.session1 =
    (Core.Err Core.PurchaseRequestRejected, Sample.session1) ∧
  (Core.requestPurchase
      {| Core.skus := ["cpk.membership.monthly.bronze"; "cpk.membership.monthly.silver"];
         Core.kind := subs; Core.offerTokens := ["tok-base"; "tok-silver"] |}
      Sample.session1).1 = Core.Ok tt.
Proof. split_and!; reflexivity. Qed.

Example redelivery_is_delivered_twice :
  Core.inboxes (Core.session Sample.redelivery Sample.session0) !! 0 =
    Some [ (0, Sample.bronzeResult); (1, Sample.bronzeResult) ] ∧
  Core.storeCalls (Core.session Sample.redelivery Sample.session0) =
    [ Core.PurchaseRequest Sample.bronzeIntent ].
Proof. split; reflexivity. Qed.

(* ===================================================================== *)
(** * More of the driver: the catalogue, the effects, the state cells     *)
(* ===================================================================== *)

(** ** The catalogue on screen *)

(** X1.  The receipt validation picks its subject from the cache in a fixed
    order: the first product when any product is cached, whatever the
    subscriptions; otherwise the first subscription; nothing exactly when
    both lists are empty.  On ios, connected, with a first product whose id
    is not empty, the one hook call of the operation is [validateReceipt] on
    that id. *)
Theorem productToValidate_first_cached (h : Hook) :
  (productToValidate h = None ↔ products h = [] ∧ subscriptions h = []) ∧
  (∀ p ps, products h = p :: ps → productToValidate h = Some (Product.id p)) ∧
  (∀ s ss, products h = [] → subscriptions h = s :: ss →
           productToValidate h = Some (Subscription.id s)) ∧
  (∀ env c p ps,
     connected h = true → products h = p :: ps → truthy (Some (Product.id p)) = true →
     callsIn (exec env (handleOperation ios h validateReceiptOp) c).2 =
       [ValidateReceipt (Product.id p)]).
Proof.
  unfold productToValidate. split_and!.
  - destruct (products h) as [|p ps], (subscriptions h) as [|s ss]; cbn; split;
      try done; by intros [? ?].
  - by intros p ps ->.
  - by intros s ss -> ->.
  - intros env c p ps Hc Hp Ht. unfold handleOperation. rewrite Hc. cbn [negb].
    replace (productToValidate h) with (Some (Product.id p))
      by (unfold productToValidate; by rewrite Hp).
    rewrite Ht. cbn.
    destruct (settle_validate env (Product.id p)) as [[r|]|e]; cbn; try reflexivity.
    destruct (String_ e); reflexivity.
Qed.

Lemma productToValidate_first_cached_witness :
  callsIn (exec Sample.failing
             (handleOperation ios Sample.online validateReceiptOp) initialComp).2 =
    [ValidateReceipt (Product.id Sample.points)].
Proof.
  apply (proj2 (proj2 (proj2 (productToValidate_first_cached Sample.online)))
           Sample.failing initialComp Sample.points []).
  - reflexivity.
  - reflexivity.
  - reflexivity.
Defined.

(** X2.  Every Buy/Subscribe button on screen asks for exactly one SKU, and
    that SKU is the id of an item the hook lists on this render, an android
    or ios one: a product, asked for without a purchase type and without
    offers, or a subscription, asked for with type [subs].  Items of any
    other platform get no button. *)
Theorem purchase_buttons_come_from_the_catalogue (h : Hook) (c : Comp) (args : PurchaseArgs) :
  args ∈ purchaseButtons (render h c) →
  (∃ item, item ∈ products h ∧
           skusOf (request args) = [Product.id item] ∧
           type args = None ∧ offersIn (request args) = [] ∧
           (Product.platform item = android ∨ Product.platform item = ios)) ∨
  (∃ item, item ∈ subscriptions h ∧
           skusOf (request args) = [Subscription.id item] ∧
           type args = Some subs ∧
           (Subscription.platform item = android ∨ Subscription.platform item = ios)).
Proof.
  unfold purchaseButtons, render; cbn.
  destruct (connected h); cbn; [|by intros ?%elem_of_nil].
  destruct (isReady c); cbn; [|by intros ?%elem_of_nil].
  intros [Hin|Hin]%elem_of_app.
  - left. apply elem_of_flat_map in Hin as (item & Hitem & Hin). exists item.
    unfold productButton in Hin.
    destruct (Product.platform item) eqn:Hp; try (by apply elem_of_nil in Hin);
      apply list_elem_of_singleton in Hin as ->; cbn; auto 10.
  - right. apply elem_of_flat_map in Hin as (item & Hitem & Hin). exists item.
    unfold subscriptionButtons in Hin.
    destruct (Subscription.platform item) eqn:Hp; try (by apply elem_of_nil in Hin).
    + apply list_elem_of_singleton in Hin as ->; cbn; auto 10.
    + destruct (Subscription.subscriptionOfferDetails item) as [offers|];
        [|by apply elem_of_nil in Hin].
      apply list_elem_of_fmap in Hin as (offer & -> & _). cbn. auto 10.
Qed.

Lemma purchase_buttons_come_from_the_catalogue_witness :
  (∃ item, item ∈ products Tour.stocked ∧
           skusOf (request Tour.silverYearly) = [Product.id item] ∧
           type Tour.silverYearly = None ∧ offersIn (request Tour.silverYearly) = [] ∧
           (Product.platform item = android ∨ Product.platform item = ios)) ∨
  (∃ item, item ∈ subscriptions Tour.stocked ∧
           skusOf (request Tour.silverYearly) = [Subscription.id item] ∧
           type Tour.silverYearly = Some subs ∧
           (Subscription.platform item = android ∨ Subscription.platform item = ios)).
Proof.
  apply (purchase_buttons_come_from_the_catalogue Tour.stocked Tour.stale Tour.silverYearly).
  vm_compute. apply list_elem_of_In. vm_compute. auto.
Defined.



(** ** The two effects *)

(** X4.  What a render with new hook values sends out is decided by the two
    dependency lists alone, compared as React compares them: [connected] by
    value, the fetch callbacks and the two purchase objects by identity.
    The pair of initial fetches, [getProducts(productSkus)] then
    [getSubscriptions(subscriptionSkus)], is issued exactly when [connected]
    or the identity of the fetch callbacks changed and the new render is
    connected; nothing else ever calls the hook on a render.  The purchase
    alerts are put off exactly when [currentPurchase] or
    [currentPurchaseError] is another object than before (or came, or went),
    and then one for each of the two that is set, also for the one that did
    not change; a purchase object changed in place raises nothing.  No alert
    is shown at once.  On the first render both effects run: the fetches are
    issued when it is connected, and a purchase or purchase error the hook
    already holds is alerted. *)
Theorem render_effects_follow_dependencies (h' : Hook) (a : App) :
  callsIn (rerender h' a).2 =
    (if fetchDepsChanged (hook a) h' && connected h' then initCalls else []) ∧
  flat_map deferred (rerender h' a).2 =
    (if purchaseDepsChanged (hook a) h' then purchaseAlerts h' else []) ∧
  (ref <$> currentPurchase (hook a) = ref <$> currentPurchase h' →
   ref <$> currentPurchaseError (hook a) = ref <$> currentPurchaseError h' →
   flat_map deferred (rerender h' a).2 = []) ∧
  (ref <$> currentPurchase (hook a) ≠ ref <$> currentPurchase h' ∨
   ref <$> currentPurchaseError (hook a) ≠ ref <$> currentPurchaseError h' →
   flat_map deferred (rerender h' a).2 = purchaseAlerts h') ∧
  flat_map shown (rerender h' a).2 = [] ∧
  hook (rerender h' a).1 = h' ∧
  comp (rerender h' a).1 = comp a ∧
  (mount h').2 =
    (if connected h' then map Call initCalls else []) ++
    map runAfterInteractions (purchaseAlerts h').
Proof.
  assert (flat_map deferred (rerender h' a).2 =
          (if purchaseDepsChanged (hook a) h' then purchaseAlerts h' else [])) as Hdef.
  { rewrite rerender_effects, flat_map_app.
    replace (flat_map deferred
               (if fetchDepsChanged (hook a) h' && connected h'
                then map Call initCalls else [])) with (@nil AlertSpec)
      by (by destruct (_ && _)).
    destruct (purchaseDepsChanged (hook a) h'); [|done].
    unfold purchaseAlerts.
    by destruct (currentPurchase h'), (currentPurchaseError h'). }
  split_and!; [|done| | | | | |
    unfold mount, andThen, fetchEffect, purchaseEffect, purchaseAlerts;
    by destruct (connected h'), (currentPurchase h'), (currentPurchaseError h')].
  - rewrite rerender_effects, callsIn_app.
    replace (callsIn (if purchaseDepsChanged (hook a) h'
                      then map runAfterInteractions (purchaseAlerts h') else [])) with
      (@nil HookCall).
    + rewrite app_nil_r. by destruct (_ && _).
    + destruct (purchaseDepsChanged (hook a) h'); [|done].
      unfold purchaseAlerts.
      by destruct (currentPurchase h'), (currentPurchaseError h').
  - intros H1 H2. rewrite Hdef. unfold purchaseDepsChanged.
    by rewrite bool_decide_eq_true_2.
  - intros Hne. rewrite Hdef. unfold purchaseDepsChanged.
    rewrite bool_decide_eq_false_2; [done|]. intros [H1 H2]. by destruct Hne.
  - apply rerender_shown.
  - by destruct (rerender_framed h' a) as (_ & _ & ? & _).
  - apply rerender_comp.
Qed.

(** A purchase the hook changes in place is the same dependency: the
    effect does not run again.  Another object with the same content is a
    new one: it does. *)
Example purchase_changed_in_place :
  (rerender
     {| connected := true; products := [Sample.points]; subscriptions := [Tour.silver];
        currentPurchase := Some {| ref := 7; json := "{acknowledged}"; str := None |};
        currentPurchaseError := Some Tour.declined; fetchers := 0 |}
     (mount Tour.afterDecline).1).2 = [] ∧
  (rerender
     {| connected := true; products := [Sample.points]; subscriptions := [Tour.silver];
        currentPurchase := Some {| ref := 9; json := "{purchase}"; str := None |};
        currentPurchaseError := Some Tour.declined; fetchers := 0 |}
     (mount Tour.afterDecline).1).2 =
    [ runAfterInteractions (plainAlert "Purchase updated" "{purchase}");
      runAfterInteractions (plainAlert "Purchase error" "{declined}") ].
Proof. split; reflexivity. Qed.

(** X5.  A render that brings the hook values the component already has
    changes nothing and emits nothing: no fetch is issued again and no
    purchase alert is raised again. *)
Theorem render_of_same_values_is_silent (a : App) :
  rerender (hook a) a = (a, []).
Proof.
  unfold rerender, andThen. cbv zeta.
  rewrite !bool_decide_eq_true_2 by done. by destruct a.
Qed.

(** ** [initializeIAP] and [handleOperation] *)

(** X6.  [initializeIAP] always issues both fetches, products first, and
    always returns.  It sets the ready flag exactly when both promises are
    fulfilled and touches no other cell; when one rejects, the reason goes
    to the console and no alert of any kind is raised, so the failure is
    not shown to the user and the flag stays as it was. *)
Theorem initializeIAP_fails_silently (env : Oracle) (c : Comp) :
  (exec env initializeIAP c).1.1 = Returned tt ∧
  callsIn (exec env initializeIAP c).2 = initCalls ∧
  filter (fun e => isAlert e = true) (exec env initializeIAP c).2 = [] ∧
  (exec env initializeIAP c).1.2 =
    match Promise_all (map (settle_fetch env) initCalls) with
    | Fulfilled _ => apply_setter (setIsReady true) c
    | Rejected _ => c
    end ∧
  (∀ e, Promise_all (map (settle_fetch env) initCalls) = Rejected e →
        (exec env initializeIAP c).2 =
          map Call initCalls ++ [console_error "Error initializing IAP:" e]).
Proof.
  unfold initializeIAP. cbn.
  destruct (settle_fetch env (GetProducts productSkus)) as [[]|e1];
    [destruct (settle_fetch env (GetSubscriptions subscriptionSkus)) as [[]|e2]|];
    cbn; split_and!; try done; by intros e [= ->].
Qed.

Lemma initializeIAP_fails_silently_witness :
  (exec Sample.failing initializeIAP Tour.stale).2 =
    map Call initCalls ++ [console_error "Error initializing IAP:" Sample.boom].
Proof.
  apply (proj2 (proj2 (proj2 (proj2 (initializeIAP_fails_silently Sample.failing Tour.stale))))).
  reflexivity.
Defined.

(** X7.  Whatever the operation, the platform, the hook values and the way
    the promises settle, [handleOperation] leaves the ready flag and the
    sync error alone, calls the hook at most once, only when connected, and
    never requests a purchase; a fetch operation is always the call with the
    module's own SKU list and changes no cell at all, also when it fails. *)
Theorem handleOperation_footprint
    (os : PlatformOS) (h : Hook) (operation : Operation) (env : Oracle) (c : Comp) :
  isReady (exec env (handleOperation os h operation) c).1.2 = isReady c ∧
  syncError (exec env (handleOperation os h operation) c).1.2 = syncError c ∧
  (length (callsIn (exec env (handleOperation os h operation) c).2) ≤ 1)%nat ∧
  (callsIn (exec env (handleOperation os h operation) c).2 ≠ [] → connected h = true) ∧
  (∀ args, RequestPurchase args ∉ callsIn (exec env (handleOperation os h operation) c).2) ∧
  (connected h = true → operation = getProductsOp →
     callsIn (exec env (handleOperation os h operation) c).2 = [GetProducts productSkus] ∧
     (exec env (handleOperation os h operation) c).1.2 = c) ∧
  (connected h = true → operation = getSubscriptionsOp →
     callsIn (exec env (handleOperation os h operation) c).2 =
       [GetSubscriptions subscriptionSkus] ∧
     (exec env (handleOperation os h operation) c).1.2 = c).
Proof.
  unfold handleOperation.
  destruct (connected h); cbn [negb];
    [|cbn; split_and!; try done; try lia; intros args; not_listed].
  destruct operation.
  - cbn. destruct (settle_fetch env _) as [[]|e]; cbn; [|destruct (String_ e); cbn];
      (split_and!; try done; try lia; intros args; not_listed).
  - cbn. destruct (settle_fetch env _) as [[]|e]; cbn; [|destruct (String_ e); cbn];
      (split_and!; try done; try lia; intros args; not_listed).
  - destruct (productToValidate h) as [p|];
      [|cbn; split_and!; try done; try lia; intros args; not_listed].
    destruct (truthy (Some p));
      [|cbn; split_and!; try done; try lia; intros args; not_listed].
    destruct os; cbn;
      try (split_and!; try done; try lia; intros args; not_listed).
    destruct (settle_validate env p) as [[r|]|e]; cbn; [| |destruct (String_ e); cbn];
      (split_and!; try done; try lia; intros args; not_listed).
Qed.

Lemma handleOperation_footprint_witness :
  callsIn (exec Sample.failing (handleOperation android Sample.online getProductsOp)
             Tour.stale).2 = [GetProducts productSkus] ∧
  (exec Sample.failing (handleOperation android Sample.online getProductsOp)
     Tour.stale).1.2 = Tour.stale.
Proof.
  apply (proj1 (proj2 (proj2 (proj2 (proj2 (proj2
           (handleOperation_footprint android Sample.online getProductsOp
              Sample.failing Tour.stale))))))).
  - reflexivity.
  - reflexivity.
Defined.

(** X14.  What [handleOperation] does with a failure.  When the call it
    awaits rejects with a value [String] can convert, the function returns
    and the converted value is shown in an "Error in <operation>" alert.  It
    ends by throwing in one case only: the awaited call rejected with a
    value [String] cannot convert; no alert has been raised then.  Not
    connected, or validating with nothing cached, it returns after its one
    alert without calling the hook. *)
Theorem handleOperation_reports_what_it_catches
    (os : PlatformOS) (h : Hook) (operation : Operation) (env : Oracle) (c : Comp) :
  (∀ call e message,
     call ∈ callsIn (exec env (handleOperation os h operation) c).2 →
     rejection env call = Some e →
     String_ e = Some message →
     (exec env (handleOperation os h operation) c).1.1 = Returned tt ∧
     errorAlert operation message ∈ (exec env (handleOperation os h operation) c).2) ∧
  (∀ thrown,
     (exec env (handleOperation os h operation) c).1.1 = Threw thrown →
     (∃ call e,
        callsIn (exec env (handleOperation os h operation) c).2 = [call] ∧
        rejection env call = Some e ∧ String_ e = None) ∧
     filter (fun e => isAlert e = true) (exec env (handleOperation os h operation) c).2 = []) ∧
  (connected h = false →
     exec env (handleOperation os h operation) c = (Returned tt, c, [notConnectedAlert])) ∧
  (connected h = true → operation = validateReceiptOp →
   products h = [] → subscriptions h = [] →
     exec env (handleOperation os h operation) c = (Returned tt, c, [noProductsAlert])).
Proof.
  split_and!.
  - intros call e message. unfold handleOperation.
    destruct (connected h); cbn [negb]; [|cbn; by intros ?%elem_of_nil].
    destruct operation.
    + cbn. destruct (settle_fetch env _) as [[]|e0] eqn:Hs; cbn;
        [|destruct (String_ e0) eqn:Hstr; cbn];
        intros ->%list_elem_of_singleton; cbn; rewrite Hs; try done;
        intros [= ->] Hm; [|congruence].
      split; [done|]. replace message with s by congruence.
      unfold errorAlert, plainAlert. cbn. set_solver.
    + cbn. destruct (settle_fetch env _) as [[]|e0] eqn:Hs; cbn;
        [|destruct (String_ e0) eqn:Hstr; cbn];
        intros ->%list_elem_of_singleton; cbn; rewrite Hs; try done;
        intros [= ->] Hm; [|congruence].
      split; [done|]. replace message with s by congruence.
      unfold errorAlert, plainAlert. cbn. set_solver.
    + destruct (productToValidate h) as [p|]; [|cbn; by intros ?%elem_of_nil].
      destruct (truthy (Some p)); [|cbn; by intros ?%elem_of_nil].
      destruct os; cbn; try (by intros ?%elem_of_nil).
      destruct (settle_validate env p) as [[r|]|e0] eqn:Hs; cbn;
        [| |destruct (String_ e0) eqn:Hstr; cbn];
        intros ->%list_elem_of_singleton; cbn; rewrite Hs; try done;
        intros [= ->] Hm; [|congruence].
      split; [done|]. replace message with s by congruence.
      unfold errorAlert, plainAlert. cbn. set_solver.
  - intros thrown. unfold handleOperation.
    destruct (connected h); cbn [negb]; [|by cbn].
    destruct operation.
    + cbn. destruct (settle_fetch env _) as [[]|e0] eqn:Hs; cbn; [done|].
      destruct (String_ e0) eqn:Hstr; cbn; [done|]. intros _. split; [|done].
      eexists _, e0. split; [reflexivity|]. cbn. by rewrite Hs.
    + cbn. destruct (settle_fetch env _) as [[]|e0] eqn:Hs; cbn; [done|].
      destruct (String_ e0) eqn:Hstr; cbn; [done|]. intros _. split; [|done].
      eexists _, e0. split; [reflexivity|]. cbn. by rewrite Hs.
    + destruct (productToValidate h) as [p|]; [|by cbn].
      destruct (truthy (Some p)); [|by cbn].
      destruct os; cbn; try done.
      destruct (settle_validate env p) as [[r|]|e0] eqn:Hs; cbn; [done|done|].
      destruct (String_ e0) eqn:Hstr; cbn; [done|]. intros _. split; [|done].
      eexists _, e0. split; [reflexivity|]. cbn. by rewrite Hs.
  - intros Hc. by rewrite exec_handleOperation_offline.
  - intros Hc -> Hp Hsub. unfold handleOperation, productToValidate.
    rewrite Hc, Hp, Hsub. reflexivity.
Qed.

Lemma handleOperation_reports_what_it_catches_witness :
  (exec Sample.failing (handleOperation ios Sample.online validateReceiptOp) Tour.stale).1.1 =
    Returned tt ∧
  errorAlert validateReceiptOp "Error: boom" ∈
    (exec Sample.failing (handleOperation ios Sample.online validateReceiptOp) Tour.stale).2.
Proof.
  apply (proj1 (handleOperation_reports_what_it_catches ios Sample.online validateReceiptOp
                  Sample.failing Tour.stale)
           (ValidateReceipt "cpk.points.1000") Sample.boom "Error: boom").
  - apply list_elem_of_singleton. reflexivity.
  - reflexivity.
  - reflexivity.
Defined.

(** ** The event loop *)

Lemma run_isReady os evs a a' l :
  Inv os a → run os evs a = Some (a', l) →
  isReady (comp a) = true → isReady (comp a') = true.
Proof.
  revert a l. induction evs as [|ev evs IH]; intros a l Ha Hr Hready.
  - cbn in Hr. by injection Hr as <- <-.
  - apply run_cons_inv in Hr as (a1 & l1 & l2 & Hs & Hr & ->).
    eapply IH; [by eapply step_Inv|exact Hr|].
    destruct (step_cells os ev a a1 l1 Ha Hs) as ([Hsame|(i & k & _ & _ & Htrue)] & _);
      congruence.
Qed.

(** X9.  The ready flag is never taken back.  From a state in which it is
    set, whatever happens next (disconnects, new hook values, failed
    fetches, alerts), it is still set, so the screen never shows Loading
    again: it shows "Not connected" while the hook says so and the
    catalogue of the hook's current values as soon as it is connected, also
    while the fetches issued on reconnecting are still pending. *)
Theorem ready_flag_is_never_reset
    (os : PlatformOS) (a : App) (evs : list Event) (a' : App) (l : list Effect) :
  reachable os a →
  run os evs a = Some (a', l) →
  isReady (comp a) = true →
  isReady (comp a') = true ∧
  content (render (hook a') (comp a')) =
    (if connected (hook a')
     then Catalogue (flat_map productButton (products (hook a')) ++
                     flat_map subscriptionButtons (subscriptions (hook a')))
     else NotConnectedText).
Proof.
  intros Hreach Hr Hready.
  pose proof (run_isReady os evs a a' l (reachable_Inv os a Hreach) Hr Hready) as H.
  split; [done|]. unfold render; cbn. rewrite H. by destruct (connected (hook a')).
Qed.

Lemma ready_flag_is_never_reset_witness :
  isReady (comp Tour.returned) = true ∧
  content (render (hook Tour.returned) (comp Tour.returned)) =
    (if connected (hook Tour.returned)
     then Catalogue (flat_map productButton (products (hook Tour.returned)) ++
                     flat_map subscriptionButtons (subscriptions (hook Tour.returned)))
     else NotConnectedText).
Proof.
  apply (ready_flag_is_never_reset android Sample.ready Tour.dropAndReturn
           Tour.returned Tour.returnedLog).
  - exists Sample.online, [Settle 0 Sample.bothFulfilled], Sample.readyLog. reflexivity.
  - reflexivity.
  - reflexivity.
Defined.

Lemma settle_pending os i o a a' l :
  Inv os a → settle i o a = Some (a', l) → pending a' = delete i (pending a).
Proof.
  intros Ha Hs. unfold settle in Hs.
  destruct (pending a !! i) as [t|] eqn:Hi; [|done]. cbn in Hs.
  assert (task_ok os t) as Hok.
  { destruct Ha as (Ht & _). eapply Forall_forall; [exact Ht|].
    by eapply list_elem_of_lookup_2. }
  destruct t as [calls k|sku k], o as [outs|out]; try done.
  - case_bool_decide; [|done]. some_pair Hs. destruct Hok as (_ & Hk & _).
    unfold launch; simpl.
    destruct (run_status (start (k (Promise_all outs)) (comp a))) as [| |t] eqn:Hst;
      [cbn; by rewrite app_nil_r|cbn; by rewrite app_nil_r|].
    by destruct (start_straight_status _ _ (comp a) (Hk (Promise_all outs)) t).
  - some_pair Hs. destruct Hok as (_ & Hk & _).
    unfold launch; simpl.
    destruct (run_status (start (k out) (comp a))) as [| |t] eqn:Hst;
      [cbn; by rewrite app_nil_r|cbn; by rewrite app_nil_r|].
    by destruct (start_straight_status _ _ (comp a) (Hk out) t).
Qed.

(** X10.  The hook is called only on a render, on a press on an operation
    button and on a press on a Buy/Subscribe button.  When an await settles,
    fulfilled or rejected, the function that resumes calls nothing and
    awaits nothing further: the await leaves the pending ones and none is
    added, so a fetch that failed is not tried again by itself.  Callbacks,
    alerts coming up and presses on alert buttons call nothing either. *)
Theorem no_call_without_render_or_press
    (os : PlatformOS) (a : App) (ev : Event) (a' : App) (l : list Effect) :
  reachable os a →
  step os ev a = Some (a', l) →
  (callsIn l ≠ [] → callsHook ev) ∧
  (∀ i o, ev = Settle i o →
     callsIn l = [] ∧ pending a' = delete i (pending a) ∧ hook a' = hook a).
Proof.
  intros Hreach Hs. pose proof (reachable_Inv os a Hreach) as Ha. split.
  - destruct ev as [h'|p|e|e|operation|args|i j| |i o]; cbn [step callsHook] in *;
      try done.
    + some_pair Hs. by cbn.
    + some_pair Hs. by cbn.
    + some_pair Hs. by cbn.
    + destruct (pressAlert_inv os i j a a' l Ha Hs) as (_ & _ & _ & _ & -> & _). by cbn.
    + some_pair Hs. cbn. by rewrite callsIn_alerts.
    + destruct (settle_inv os i o a a' l Ha Hs) as (Hpl & _).
      by rewrite (plain_callsIn l Hpl).
  - intros i o ->. cbn [step] in Hs.
    destruct (settle_inv os i o a a' l Ha Hs) as (Hpl & _ & Hh & _).
    split_and!; [by apply plain_callsIn|by eapply settle_pending|done].
Qed.

Lemma no_call_without_render_or_press_witness :
  (callsIn Sample.readyLog ≠ [] → callsHook (Settle 0 Sample.bothFulfilled)) ∧
  (∀ i o, Settle 0 Sample.bothFulfilled = Settle i o →
     callsIn Sample.readyLog = [] ∧
     pending Sample.ready = delete i (pending (mount Sample.online).1) ∧
     hook Sample.ready = hook (mount Sample.online).1).
Proof.
  apply (no_call_without_render_or_press android (mount Sample.online).1
           (Settle 0 Sample.bothFulfilled) Sample.ready Sample.readyLog).
  - exists Sample.online, [], []. reflexivity.
  - reflexivity.
Defined.

(** X8.  The validation result on screen follows the settlements of
    [validateReceipt], one by one.  A press that reaches the validation
    clears it; a press that stops before, not connected or with nothing
    cached, leaves every cell as it is.  When a pending [validateReceipt]
    settles, the result becomes the value it was fulfilled with (nothing
    when that is [undefined]), and stays as it is when it was rejected: a
    rejection does not clear what another validation, in flight at the same
    time, has put on screen since the press. *)
Theorem validation_result_follows_the_settlements (os : PlatformOS) (a : App) :
  reachable os a →
  (∀ a' l p,
     step os (PressOperation validateReceiptOp) a = Some (a', l) →
     connected (hook a) = true → productToValidate (hook a) = Some p →
     truthy (Some p) = true →
     validationResult (comp a') = None) ∧
  (∀ a' l,
     step os (PressOperation validateReceiptOp) a = Some (a', l) →
     connected (hook a) = false ∨ productToValidate (hook a) = None →
     comp a' = comp a) ∧
  (∀ i out a' l,
     step os (Settle i (SettleValidate out)) a = Some (a', l) →
     validationResult (comp a') =
       match out with
       | Fulfilled result => result
       | Rejected _ => validationResult (comp a)
       end).
Proof.
  intros Hreach. pose proof (reachable_Inv os a Hreach) as Ha. split_and!.
  - intros a' l p Hs Hc Hp Ht. cbn [step] in Hs.
    case_bool_decide; [|done]. some_pair Hs.
    unfold launch, handleOperation. rewrite Hc, Hp, Ht. by destruct os.
  - intros a' l Hs H0. cbn [step] in Hs.
    case_bool_decide; [|done]. some_pair Hs.
    unfold launch, handleOperation. destruct H0 as [H0|H0].
    + by rewrite H0.
    + destruct (connected (hook a)); [|done]. by rewrite H0.
  - intros i out a' l Hs. cbn [step] in Hs. unfold settle in Hs.
    destruct (pending a !! i) as [t|] eqn:Hi; [|done]. cbn in Hs.
    assert (task_ok os t) as Hok.
    { destruct Ha as (Ht & _). eapply Forall_forall; [exact Ht|].
      by eapply list_elem_of_lookup_2. }
    destruct t as [calls k|sku k]; [done|]. some_pair Hs.
    destruct Hok as (_ & _ & Hres). unfold launch; cbn [fst comp with_pending].
    apply Hres.
Qed.

Lemma validation_result_follows_the_settlements_witness :
  validationResult (comp Tour.overlapped) =
    match Rejected Sample.boom with
    | Fulfilled result => result
    | Rejected _ => validationResult (comp Tour.overlapping)
    end.
Proof.
  refine (proj2 (proj2 (validation_result_follows_the_settlements ios Tour.overlapping _))
            1 (Rejected Sample.boom) Tour.overlapped Tour.overlappedLog _).
  - exists Sample.online,
      [PressOperation validateReceiptOp; PressOperation validateReceiptOp;
       Settle 1 (SettleValidate (Fulfilled (Some Tour.valid)))].
    eexists. reflexivity.
  - reflexivity.
Defined.

(** Two validations in flight: the first is fulfilled, the second rejected
    afterwards; the first one's result is still shown. *)
Example overlapping_validations :
  validationResult (comp Tour.overlapping) = Some Tour.valid ∧
  validationPanel (render (hook Tour.overlapped) (comp Tour.overlapped)) = Some Tour.valid ∧
  flat_map shown Tour.overlappedLog = [plainAlert "Error in validateReceipt" "Error: boom"].
Proof. split_and!; reflexivity. Qed.

(** X11.  The validation result on screen changes only through the receipt
    validation: on the press on its button, or when the [validateReceipt] it
    awaits settles.  Fetching, rendering, purchase and sync callbacks,
    alerts and purchase presses never clear or replace it. *)
Theorem validation_result_changes_only_by_validation
    (os : PlatformOS) (a : App) (ev : Event) (a' : App) (l : list Effect) :
  reachable os a →
  step os ev a = Some (a', l) →
  validationResult (comp a') ≠ validationResult (comp a) →
  ev = PressOperation validateReceiptOp ∨
  ∃ i out sku k, ev = Settle i (SettleValidate out) ∧
                 pending a !! i = Some (TaskValidate sku k).
Proof.
  intros Hreach Hs Hne. pose proof (reachable_Inv os a Hreach) as Ha.
  destruct ev as [h'|p|e|e|operation|args|i j| |i o]; cbn [step] in *.
  - some_pair Hs. by rewrite rerender_comp in Hne.
  - some_pair Hs. by cbn in Hne.
  - some_pair Hs. by cbn in Hne.
  - some_pair Hs. by cbn in Hne.
  - case_bool_decide; [|done]. some_pair Hs.
    destruct operation; [| |by left]; exfalso; apply Hne;
      unfold launch, handleOperation; destruct (connected (hook a)); reflexivity.
  - case_bool_decide; [|done]. some_pair Hs. by cbn in Hne.
  - destruct (pressAlert_inv os i j a a' l Ha Hs) as (al & handler & _ & Hh & _ & ->).
    cbn in Hne. by destruct Hh as [->|[_ ->]].
  - some_pair Hs. by cbn in Hne.
  - right. unfold settle in Hs.
    destruct (pending a !! i) as [t|] eqn:Hi; [|done]. cbn in Hs.
    assert (task_ok os t) as Hok.
    { destruct Ha as (Ht & _). eapply Forall_forall; [exact Ht|].
      by eapply list_elem_of_lookup_2. }
    destruct t as [calls k|sku k], o as [outs|out]; try done.
    + case_bool_decide; [|done]. some_pair Hs. destruct Hok as (_ & Hk & _).
      exfalso. apply Hne. unfold launch; cbn [fst comp with_pending].
      apply (start_straight_comp (afterFetch calls (Promise_all outs))
               (fun c => validationResult c = validationResult (comp a))); [|done|done].
      by intros s c (-> & _) Hc.
    + by exists i, out, sku, k.
Qed.

Lemma validation_result_changes_only_by_validation_witness :
  PressOperation validateReceiptOp = PressOperation validateReceiptOp ∨
  ∃ i out sku k, PressOperation validateReceiptOp = Settle i (SettleValidate out) ∧
                 pending Tour.validatedOnce !! i = Some (TaskValidate sku k).
Proof.
  apply (validation_result_changes_only_by_validation ios Tour.validatedOnce
           (PressOperation validateReceiptOp) Tour.validatingAgain Tour.validatingAgainLog).
  - exists Sample.online,
      [PressOperation validateReceiptOp;
       Settle 1 (SettleValidate (Fulfilled (Some Tour.valid)))].
    eexists. reflexivity.
  - reflexivity.
  - vm_compute. discriminate.
Defined.

Lemma syncAlertsIn_app l1 l2 :
  syncAlertsIn (l1 ++ l2) = (syncAlertsIn l1 + syncAlertsIn l2)%nat.
Proof. unfold syncAlertsIn. by rewrite filter_app, length_app. Qed.

Lemma syncAlertsIn_ok al :
  alert_ok al → hasHandler al = true → al = syncErrorAlert.
Proof. intros [->|Hb] Hh; [done|]. unfold hasHandler in Hh. by rewrite Hb in Hh. Qed.

Lemma syncAlertsIn_plain al : alert_buttons al = [] → syncAlertsIn [al] = 0.
Proof.
  intros Hb. unfold syncAlertsIn. rewrite filter_cons_False; [done|].
  unfold hasHandler. by rewrite Hb.
Qed.

Lemma plainOrCall_no_handler l :
  Forall plainOrCall l →
  syncAlertsIn (flat_map deferred l) = 0 ∧ syncAlertsIn (flat_map shown l) = 0.
Proof.
  induction 1 as [|e l He _ [IH1 IH2]]; [done|]. cbn [flat_map].
  rewrite !syncAlertsIn_app, IH1, IH2.
  destruct He as [He|(c0 & -> & _)]; [|done].
  destruct e as [al|al| | |]; cbn [deferred shown plain] in *; try done.
  - by rewrite syncAlertsIn_plain.
  - by rewrite syncAlertsIn_plain.
Qed.

Lemma plain_plainOrCall l : Forall plain l → Forall plainOrCall l.
Proof. intros H. eapply Forall_impl; [exact H|]. intros e He. by left. Qed.

Lemma launch_syncAlerts (p : Prog unit) a :
  Forall plainOrCall (run_effects (start p (comp a))) →
  syncAlertsOf (launch p a).1 = syncAlertsOf a.
Proof.
  intros Heff. destruct (plainOrCall_no_handler _ Heff) as [H1 H2].
  unfold syncAlertsOf, launch. cbn [fst scheduled alerts].
  rewrite !syncAlertsIn_app, H1, H2. lia.
Qed.

Lemma rerender_syncAlerts h' a : syncAlertsOf (rerender h' a).1 = syncAlertsOf a.
Proof.
  unfold rerender. cbv zeta.
  apply (andThen_frame (fun a a' _ => syncAlertsOf a' = syncAlertsOf a)
           _ _ (with_hook h' a)).
  - done.
  - intros a1 a2 a3 _ _ H1 H2. congruence.
  - intros a0. case_bool_decide; [done|].
    apply launch_syncAlerts. eapply (start_entry_effects ios), fetchEffect_entry.
  - intros a0. case_bool_decide; [done|].
    apply launch_syncAlerts. eapply (start_entry_effects ios), purchaseEffect_entry.
Qed.

(** One event that is not a press on an alert button: the sync error held
    afterwards, and the alerts with a handler. *)
Lemma step_syncError os ev a a' l :
  Inv os a → step os ev a = Some (a', l) → (∀ i j, ev ≠ PressAlert i j) →
  syncError (comp a') = latestSyncError [ev] (syncError (comp a)) ∧
  syncAlertsOf a' = (syncAlertsOf a + (if isSyncError ev then 1 else 0))%nat.
Proof.
  intros Ha Hs Hno.
  destruct ev as [h'|p|e|e|operation|args|i j| |i o]; cbn [step latestSyncError isSyncError] in *.
  - some_pair Hs. rewrite rerender_comp, rerender_syncAlerts. split; [done|lia].
  - some_pair Hs. split; [done|]. unfold syncAlertsOf, syncAlertsIn; cbn.
    rewrite ?filter_app, ?length_app. cbn. repeat case_decide; try done; cbn; lia.
  - some_pair Hs. split; [done|]. unfold syncAlertsOf, syncAlertsIn; cbn.
    rewrite ?filter_app, ?length_app. cbn. repeat case_decide; try done; cbn; lia.
  - some_pair Hs. split; [done|]. unfold syncAlertsOf, syncAlertsIn; cbn.
    rewrite ?filter_app, ?length_app. cbn. repeat case_decide; try done; cbn; lia.
  - case_bool_decide; [|done]. some_pair Hs.
    pose proof (handleOperation_entry os (hook a) operation) as Hp. split.
    + by destruct (launch_entry_frame os _ a Hp) as (? & _).
    + rewrite launch_syncAlerts; [lia|]. by eapply start_entry_effects.
  - case_bool_decide; [|done]. some_pair Hs. split; [done|].
    unfold syncAlertsOf, syncAlertsIn; cbn.
    rewrite ?filter_app, ?length_app. cbn. repeat case_decide; try done; cbn; lia.
  - by destruct (Hno i j).
  - some_pair Hs. split; [done|]. unfold syncAlertsOf, syncAlertsIn; cbn.
    rewrite ?filter_app, ?length_app. cbn. repeat case_decide; try done; cbn; lia.
  - destruct (settle_inv os i o a a' l Ha Hs) as (Hpl & Hse & _ & _). split; [done|].
    unfold settle in Hs. destruct (pending a !! i) as [t|] eqn:Hi; [|done]. cbn in Hs.
    assert (task_ok os t) as Hok.
    { destruct Ha as (Ht & _). eapply Forall_forall; [exact Ht|].
      by eapply list_elem_of_lookup_2. }
    destruct t as [calls k|sku k], o as [outs|out]; try done.
    + case_bool_decide; [|done]. some_pair Hs. destruct Hok as (_ & Hk & _).
      rewrite (launch_syncAlerts (k (Promise_all outs))
                 (with_pending (delete i (pending a)) a)); [unfold syncAlertsOf, with_pending; cbn [scheduled alerts]; lia|].
      apply plain_plainOrCall.
      apply (start_straight_effects (afterFetch calls (Promise_all outs))), Hk.
    + some_pair Hs. destruct Hok as (_ & Hk & _).
      rewrite (launch_syncAlerts (k out)
                 (with_pending (delete i (pending a)) a)); [unfold syncAlertsOf, with_pending; cbn [scheduled alerts]; lia|].
      apply plain_plainOrCall. apply (start_straight_effects afterValidate), Hk.
Qed.

Lemma latestSyncError_cons ev evs held :
  latestSyncError (ev :: evs) held = latestSyncError evs (latestSyncError [ev] held).
Proof. by destruct ev. Qed.

(** X12.  Along a run without a press on an alert button, the [syncError]
    cell holds the sync error reported last (the one it held before when
    none was reported), and every report has raised an alert of its own:
    the alerts carrying a handler, which are all "Sync Error" alerts, have
    grown by exactly the number of reports; reports are not merged with one
    still unacknowledged. *)
Theorem sync_errors_latest_wins_and_each_alerts
    (os : PlatformOS) (a : App) (evs : list Event) (a' : App) (l : list Effect) :
  reachable os a →
  run os evs a = Some (a', l) →
  Forall (fun ev => ∀ i j, ev ≠ PressAlert i j) evs →
  syncError (comp a') = latestSyncError evs (syncError (comp a)) ∧
  syncAlertsOf a' =
    (syncAlertsOf a + length (filter (fun ev => isSyncError ev = true) evs))%nat ∧
  (∀ al, al ∈ scheduled a' ++ alerts a' → hasHandler al = true → al = syncErrorAlert).
Proof.
  intros Hreach Hr Hno. pose proof (reachable_Inv os a Hreach) as Ha.
  split_and!.
  - clear Hreach. revert a l Ha Hr.
    induction evs as [|ev evs IH]; intros a l Ha Hr.
    + cbn in Hr. by injection Hr as <- <-.
    + apply run_cons_inv in Hr as (a1 & l1 & l2 & Hs & Hr & ->).
      apply Forall_cons in Hno as [Hev Hno].
      rewrite latestSyncError_cons.
      destruct (step_syncError os ev a a1 l1 Ha Hs Hev) as [<- _].
      eapply IH; [done|by eapply step_Inv|exact Hr].
  - clear Hreach. revert a l Ha Hr.
    induction evs as [|ev evs IH]; intros a l Ha Hr.
    + cbn in Hr. injection Hr as <- <-. cbn. lia.
    + apply run_cons_inv in Hr as (a1 & l1 & l2 & Hs & Hr & ->).
      apply Forall_cons in Hno as [Hev Hno].
      destruct (step_syncError os ev a a1 l1 Ha Hs Hev) as [_ H1].
      rewrite (IH Hno a1 l2); [|by eapply step_Inv|exact Hr]. rewrite H1.
      destruct ev; cbn [isSyncError];
        rewrite ?filter_cons_True, ?filter_cons_False by done; cbn [length]; lia.
  - intros al Hin Hh. apply syncAlertsIn_ok; [|done].
    destruct (run_Inv os evs a a' l Ha Hr) as (_ & Hal & _).
    by eapply Forall_forall in Hal.
Qed.

Lemma sync_errors_latest_wins_and_each_alerts_witness :
  syncError (comp Tour.erredTwice) =
    latestSyncError Tour.twoErrors (syncError (comp Sample.ready)) ∧
  syncAlertsOf Tour.erredTwice =
    (syncAlertsOf Sample.ready +
     length (filter (fun ev => isSyncError ev = true) Tour.twoErrors))%nat ∧
  (∀ al, al ∈ scheduled Tour.erredTwice ++ alerts Tour.erredTwice →
         hasHandler al = true → al = syncErrorAlert).
Proof.
  apply (sync_errors_latest_wins_and_each_alerts android Sample.ready Tour.twoErrors
           Tour.erredTwice Tour.erredTwiceLog).
  - exists Sample.online, [Settle 0 Sample.bothFulfilled], Sample.readyLog. reflexivity.
  - reflexivity.
  - repeat constructor; intros i j; discriminate.
Defined.

(** X13.  Only the operation buttons raise an alert at once: in the press
    itself, or when the one call the press awaits settles.  Renders, the
    purchase and sync callbacks and purchase presses never do, and neither
    does the settling of the initial pair of fetches, whose failure goes to
    the console only; what the callbacks have to say is put off until
    interactions are over and comes up when the screen is idle. *)
Theorem notifications_are_put_off
    (os : PlatformOS) (a : App) (ev : Event) (a' : App) (l : list Effect) :
  reachable os a →
  step os ev a = Some (a', l) →
  flat_map shown l ≠ [] →
  (∃ operation, ev = PressOperation operation) ∨
  (ev = Idle ∧ l = map Alert_alert (scheduled a)) ∨
  (∃ i o t operation,
     ev = Settle i o ∧ pending a !! i = Some t ∧ awaitedBy operation (awaited t)).
Proof.
  intros Hreach Hs Hne. pose proof (reachable_Inv os a Hreach) as Ha.
  destruct ev as [h'|p|e|e|operation|args|i j| |i o]; cbn [step] in *;
    try (some_pair Hs; by cbn in Hne); eauto.
  - some_pair Hs. by rewrite rerender_shown in Hne.
  - case_bool_decide; [|done]. some_pair Hs. by cbn in Hne.
  - unfold pressAlert in Hs. destruct (alerts a !! i) as [al|]; [|done]. cbn in Hs.
    destruct (match alert_buttons al with [] => _ | _ => _ end); [|done]. cbn in Hs.
    by injection Hs as <- <-.
  - right; left. split; [done|]. by some_pair Hs.
  - right; right. unfold settle in Hs.
    destruct (pending a !! i) as [t|] eqn:Hi; [|done]. cbn in Hs.
    assert (task_ok os t) as Hok.
    { destruct Ha as (Ht & _). eapply Forall_forall; [exact Ht|].
      by eapply list_elem_of_lookup_2. }
    destruct t as [calls k|sku k], o as [outs|out]; try done.
    + case_bool_decide; [|done]. some_pair Hs.
      destruct Hok as (_ & _ & Hquiet & [Hinit|[Hop|Hop]]).
      * exfalso. apply Hne. unfold launch; cbn [snd].
        apply no_alert_not_shown. by apply Hquiet.
      * by exists i, (SettleAll outs), (TaskAll calls k), getProductsOp.
      * by exists i, (SettleAll outs), (TaskAll calls k), getSubscriptionsOp.
    + exists i, (SettleValidate out), (TaskValidate sku k), validateReceiptOp.
      split_and!; [done|done|]. by exists sku.
Qed.

Lemma notifications_are_put_off_witness :
  (∃ operation, PressOperation getProductsOp = PressOperation operation) ∨
  (PressOperation getProductsOp = Idle ∧
   [notConnectedAlert] = map Alert_alert (scheduled (mount Sample.offline).1)) ∨
  (∃ i o t operation,
     PressOperation getProductsOp = Settle i o ∧
     pending (mount Sample.offline).1 !! i = Some t ∧ awaitedBy operation (awaited t)).
Proof.
  apply (notifications_are_put_off android (mount Sample.offline).1
           (PressOperation getProductsOp)
           (launch (handleOperation android Sample.offline getProductsOp)
              (mount Sample.offline).1).1
           [notConnectedAlert]).
  - exists Sample.offline, [], []. reflexivity.
  - reflexivity.
  - discriminate.
Defined.
